(** * MotionLab: the animation-lifecycle composables, embedded and verified

    A shallow embedding of the TypeScript sources of MotionLab:
    - [utils/motion/config.ts]             (module [MotionConfig]),
    - [composables/.../useMotionConfig.ts] (module [UseMotionConfig]),
    - [composables/animations/useGsapContext.ts] (module [UseGsapContext]),
    - [useMagneticEffect.ts], [useHeroAnimation.ts], [useScrollReveal.ts],
    - [composables/lab/useComponentRegistry.ts] (module [Registry]).

    JavaScript numbers are IEEE-754 binary64 values and are modelled by
    Rocq's primitive floats.  Property names, ease names and labels are
    Latin-1 strings, modelled by [string]; the text of the registry, which
    the code lower-cases, is modelled over a wider alphabet (module
    [Registry]). *)

From Stdlib Require Import Floats Ascii String List Bool Arith ZArith Lia.
From Stdlib Require Import Sorted.
Import ListNotations.

Set Warnings "-inexact-float".
Set Implicit Arguments.

Open Scope string_scope.
Open Scope list_scope.

(** ** A small fragment of JavaScript *)

Module Js.

(** A thrown value: an error object with its [name] and [message]. *)
Record error : Type := Error { error_name : string; error_message : string }.

(** How a call ends: normally with a value, or abruptly with a throw. *)
Inductive completion (A : Type) : Type :=
| Normal (a : A)
| Throw (e : error).
Arguments Normal {A} a.
Arguments Throw {A} e.

(** The result of the property access [o[key]] on an object literal whose
    own properties all hold values of type [A]: an own property, a member
    inherited from [Object.prototype], or [undefined]. *)
Inductive property (A : Type) : Type :=
| Own (a : A)
| Inherited (name : string)
| Undefined.
Arguments Own {A} a.
Arguments Inherited {A} name.
Arguments Undefined {A}.

(** An object literal: its own properties in insertion order. *)
Definition object (A : Type) : Type := list (string * A).

Fixpoint getOwn {A : Type} (o : object A) (key : string) : option A :=
  match o with
  | [] => None
  | (k, v) :: o' => if String.eqb k key then Some v else getOwn o' key
  end.

Definition keys {A : Type} (o : object A) : list string := map fst o.

(** The property names every object literal inherits. *)
Definition Object_prototype : list string :=
  [ "constructor"; "__proto__"; "hasOwnProperty"; "isPrototypeOf";
    "propertyIsEnumerable"; "toLocaleString"; "toString"; "valueOf";
    "__defineGetter__"; "__defineSetter__"; "__lookupGetter__";
    "__lookupSetter__" ]%string.

(** [o[key]]: own properties first, then the prototype, else [undefined].
    A property access on an object never throws. *)
Definition get {A : Type} (o : object A) (key : string) : property A :=
  match getOwn o key with
  | Some v => Own v
  | None =>
      if existsb (String.eqb key) Object_prototype
      then Inherited key
      else Undefined
  end.

(** [ToNumber] on the result of a numeric table lookup: [undefined],
    functions and plain objects all convert to [NaN]. *)
Definition ToNumber (p : property float) : float :=
  match p with
  | Own f => f
  | Inherited _ => nan
  | Undefined => nan
  end.

(** Truthiness of a [number | null] variable holding a frame handle. *)
Definition truthy_handle (h : option nat) : bool :=
  match h with
  | Some (S _) => true
  | Some O => false
  | None => false
  end.

End Js.

Import Js.

(** ** utils/motion/config.ts *)

Module MotionConfig.

(** [motionConfig.durations], in seconds. *)
Definition durations : object float :=
  [ ("instant", 0); ("fast", 0.2); ("normal", 0.4); ("slow", 0.6);
    ("verySlow", 1) ]%float%string.

(** [motionConfig.easings], GSAP ease names. *)
Definition easings : object string :=
  [ ("linear", "none"); ("smooth", "power2.out"); ("smoothIn", "power2.in");
    ("smoothInOut", "power2.inOut"); ("elastic", "elastic.out(1, 0.3)");
    ("bounce", "bounce.out"); ("expo", "expo.out");
    ("back", "back.out(1.7)") ]%string.

(** [motionConfig.delays], in seconds. *)
Definition delays : object float :=
  [ ("none", 0); ("micro", 0.05); ("tiny", 0.1); ("small", 0.15);
    ("medium", 0.2); ("large", 0.3) ]%float%string.

(** [motionConfig.scrollTrigger.start]. *)
Definition scrollTrigger_start : string := "top 80%".

(** The static key types [keyof typeof motionConfig.durations] etc. *)
Inductive DurationKey : Type := instant | fast | normal | slow | verySlow.
Inductive EasingKey : Type :=
  linear | smooth | smoothIn | smoothInOut | elastic | bounce | expo | back.
Inductive DelayKey : Type := none | micro | tiny | small | medium | large.

Definition duration_key (k : DurationKey) : string :=
  match k with
  | instant => "instant" | fast => "fast" | normal => "normal"
  | slow => "slow" | verySlow => "verySlow"
  end.

Definition easing_key (k : EasingKey) : string :=
  match k with
  | linear => "linear" | smooth => "smooth" | smoothIn => "smoothIn"
  | smoothInOut => "smoothInOut" | elastic => "elastic"
  | bounce => "bounce" | expo => "expo" | back => "back"
  end.

Definition delay_key (k : DelayKey) : string :=
  match k with
  | none => "none" | micro => "micro" | tiny => "tiny" | small => "small"
  | medium => "medium" | large => "large"
  end.

(** The static accesses [durations.slow], [easings.smooth], ... made
    through a key of the static type. *)
Definition duration_of (k : DurationKey) : float :=
  ToNumber (get durations (duration_key k)).

Definition easing_of (k : EasingKey) : string :=
  match get easings (easing_key k) with
  | Own e => e
  | Inherited _ => ""
  | Undefined => ""
  end.

(** [getDuration], [getEasing], [getDelay]: a bare property access.  The
    key type is erased at run time, so the argument is any string. *)
Definition getDuration (key : string) : completion (property float) :=
  Normal (get durations key).

Definition getEasing (key : string) : completion (property string) :=
  Normal (get easings key).

Definition getDelay (key : string) : completion (property float) :=
  Normal (get delays key).

End MotionConfig.

(** ** composables/useMotionConfig.ts *)

Module UseMotionConfig.

Import MotionConfig.

(** The reactive cells and the media-query listeners of one process.
    [refs] holds one boolean per [ref(false)] that [useMotionConfig]
    allocated, addressed by position; [change_listeners] holds, in
    registration order, the ['change'] listeners, each of which closes
    over the address of the cell it assigns. *)
Record World : Type := mkWorld {
  refs : list bool;
  change_listeners : list nat
}.

Definition empty : World := mkWorld [] [].

(** What one call of [useMotionConfig] returns, as far as the flag is
    concerned: the address of its [prefersReducedMotion] cell. *)
Record Instance : Type := mkInstance { prefersReducedMotion : nat }.

Definition read (w : World) (a : nat) : bool := nth a (refs w) false.

Fixpoint assign (a : nat) (b : bool) (cells : list bool) : list bool :=
  match cells, a with
  | [], _ => []
  | _ :: cells', O => b :: cells'
  | c :: cells', S a' => c :: assign a' b cells'
  end.

Definition write (a : nat) (b : bool) (w : World) : World :=
  mkWorld (assign a b (refs w)) (change_listeners w).

(** [useMotionConfig()].  [client] is [import.meta.client]; [matches] is
    what [window.matchMedia(...).matches] answers at the time of the call. *)
Definition useMotionConfig (client matches : bool) (w : World)
  : Instance * World :=
  let a := length (refs w) in
  let w1 := mkWorld (refs w ++ [false]) (change_listeners w) in
  if client
  then (mkInstance a,
        mkWorld (assign a matches (refs w1)) (change_listeners w1 ++ [a]))
  else (mkInstance a, w1).

(** The platform fires ['change'] with [e.matches = matches]: every
    registered listener runs [prefersReducedMotion.value = e.matches] on
    its own cell. *)
Definition dispatchChange (matches : bool) (w : World) : World :=
  fold_left (fun w' a => write a matches w') (change_listeners w) w.

(** [getAdjustedDuration(key)] of the instance [i]. *)
Definition getAdjustedDuration (w : World) (i : Instance) (key : string)
  : completion (property float) :=
  if read w (prefersReducedMotion i)
  then match getDuration key with
       | Normal d => Normal (Own (ToNumber d / 10)%float)
       | Throw e => Throw e
       end
  else getDuration key.

(** [shouldAnimate] of the instance [i]. *)
Definition shouldAnimate (w : World) (i : Instance) : bool :=
  negb (read w (prefersReducedMotion i)).

(** What can happen to the accessor in one process. *)
Inductive step : Type :=
| Call (matches : bool)      (* some component calls [useMotionConfig()] *)
| Change (matches : bool).   (* the platform preference changes *)

Definition exec (client : bool) (w : World) (s : step) : World :=
  match s with
  | Call m => snd (useMotionConfig client m w)
  | Change m => dispatchChange m w
  end.

Definition run (client : bool) (steps : list step) : World :=
  fold_left (exec client) steps empty.

Definition is_call (s : step) : bool :=
  match s with Call _ => true | Change _ => false end.

Definition calls (steps : list step) : nat :=
  length (filter is_call steps).

End UseMotionConfig.

(** ** composables/animations/useGsapContext.ts *)

Module Gsap.

(** A DOM element: its identity and what [getBoundingClientRect] answers. *)
Record DOMRect : Type := mkRect {
  rect_left : float; rect_top : float; rect_width : float; rect_height : float
}.

Record HTMLElement : Type := mkElement { node : nat; rect : DOMRect }.

(** What [onEnter] of a scroll trigger runs. *)
Inductive handler : Type :=
| SetIsTriggered           (* [() => { isTriggered.value = true }] *)
| Custom (label : string). (* a handler supplied by the caller *)

(** The calls into the animation engine that the composables make. *)
Inductive call : Type :=
| to (target : HTMLElement) (x y duration : float) (ease : string)
| set (target : HTMLElement) (x y : float)
| timeline (ease : string)
| timeline_from (target : option HTMLElement) (y opacity duration : float)
    (delay : option float) (position : option string)
| from (targets : list (option HTMLElement)) (trigger : option HTMLElement)
    (start : string) (onEnter : handler)
    (y opacity stagger duration : float) (ease : string)
| user (label : string).   (* an animation created by caller code *)

End Gsap.

Module UseGsapContext.

Import Gsap.

(** A caller-supplied function: the engine calls it makes when it runs,
    and whether it ends by throwing. *)
Record callback : Type := mkCallback {
  creates : list call;
  throws : option error
}.

(** [setup] and [options.onRevert]; both may be absent. *)
Record Options : Type := mkOptions {
  setup : option callback;
  onRevert : option callback
}.

Inductive event : Type :=
| ContextCreated (recorded : list call)   (* [gsap.context(...)] returned *)
| ContextFailed (made : list call)        (* [gsap.context(...)] threw *)
| ContextAdd (recorded : list call)       (* [ctx.add(...)] ran its function *)
| ContextRevert (undone : list call)      (* [ctx.revert()] *)
| OnRevert (made : list call)             (* [options.onRevert()] ran *)
| Warn (message : string).                (* [console.warn] *)

(** The closure state of one [useGsapContext] call.  [ctx] is the
    engine context with the calls it has recorded, or [null]. *)
Record State : Type := mkState {
  ctx : option (list call);
  isReady : bool;
  trace : list event
}.

Definition initial : State := mkState None false [].

Definition outcome (cb : option callback) : completion unit :=
  match cb with
  | Some c => match throws c with Some e => Throw e | None => Normal tt end
  | None => Normal tt
  end.

Definition made (cb : option callback) : list call :=
  match cb with Some c => creates c | None => [] end.

(** [init()]: when [setup] throws, [gsap.context] does not return and
    neither assignment happens; the engine calls [setup] made before it
    threw have happened all the same, in a context nobody holds. *)
Definition init (o : Options) (s : State) : State * completion unit :=
  match outcome (setup o) with
  | Normal _ =>
      (mkState (Some (made (setup o))) true
               (trace s ++ [ContextCreated (made (setup o))]),
       Normal tt)
  | Throw e =>
      (mkState (ctx s) (isReady s)
               (trace s ++ [ContextFailed (made (setup o))]),
       Throw e)
  end.

(** [revert()]. *)
Definition revert (o : Options) (s : State) : State * completion unit :=
  match ctx s with
  | Some recorded =>
      let s1 := mkState None false (trace s ++ [ContextRevert recorded]) in
      match onRevert o with
      | Some cb =>
          (mkState None false (trace s1 ++ [OnRevert (creates cb)]),
           outcome (Some cb))
      | None => (s1, Normal tt)
      end
  | None => (s, Normal tt)
  end.

(** [add(animation)]. *)
Definition add (animation : callback) (s : State) : State * completion unit :=
  match ctx s with
  | Some recorded =>
      (mkState (Some (recorded ++ creates animation)) (isReady s)
               (trace s ++ [ContextAdd (creates animation)]),
       outcome (Some animation))
  | None =>
      (mkState None (isReady s)
               (trace s ++ [Warn "[useGsapContext] Context not initialized"]),
       Normal tt)
  end.

(** The engine calls that are live: those the open context has recorded. *)
Definition live (s : State) : list call :=
  match ctx s with Some recorded => recorded | None => [] end.

(** The engine calls made by a [setup] that threw: they are on the
    engine's timeline, but in no context that [revert] can reach. *)
Definition orphaned (s : State) : list call :=
  flat_map (fun e => match e with ContextFailed made => made | _ => [] end)
           (trace s).

Definition onRevert_runs (s : State) : nat :=
  length (filter (fun e => match e with OnRevert _ => true | _ => false end)
                 (trace s)).

(** Lifecycle hooks: [onMounted] runs [init], [onBeforeUnmount] runs
    [revert]. *)
Definition onMounted (o : Options) (s : State) : State := fst (init o s).
Definition onBeforeUnmount (o : Options) (s : State) : State :=
  fst (revert o s).

End UseGsapContext.

(** ** composables/animations/useMagneticEffect.ts *)

Module UseMagneticEffect.

Import Gsap.

(** [MagneticEffectOptions] after destructuring with its defaults. *)
Record Options : Type := mkOptions {
  strength : float;
  speed : float;
  radius : float;
  ease : string;
  onEnter : option string;   (* label of the caller's callback, if any *)
  onLeave : option string
}.

Definition defaults : Options :=
  mkOptions 0.3 (MotionConfig.duration_of MotionConfig.normal) 100
            (MotionConfig.easing_of MotionConfig.smooth) None None.

Record MouseEvent : Type := mkMouse { clientX : float; clientY : float }.

Inductive listener : Type := handleMouseMove_l | handleMouseLeave_l.

(** The closure state of one [useMagneticEffect] call together with the
    part of the browser it talks to. *)
Record State : Type := mkState {
  isActive : bool;
  animationFrame : option nat;          (* [number | null] *)
  next_handle : nat;                    (* next [requestAnimationFrame] id *)
  pending : list (nat * call);          (* scheduled frame callbacks *)
  listeners : list (string * listener); (* on the target element *)
  engine : list call;                   (* engine calls made so far *)
  notified : list string                (* caller callbacks run so far *)
}.

(** Frame handles are positive integers. *)
Definition initial : State := mkState false None 1 [] [] [] [].

Record Offset : Type := mkOffset {
  offset_x : float; offset_y : float; distance : float
}.

(** [calculateOffset(element, mouseX, mouseY)].  [v ** 2] is taken as
    [v * v]. *)
Definition calculateOffset (o : Options) (element : HTMLElement)
    (mouseX mouseY : float) : Offset :=
  let r := rect element in
  let centerX := (rect_left r + rect_width r / 2)%float in
  let centerY := (rect_top r + rect_height r / 2)%float in
  let deltaX := (mouseX - centerX)%float in
  let deltaY := (mouseY - centerY)%float in
  let distance := PrimFloat.sqrt (deltaX * deltaX + deltaY * deltaY)%float in
  mkOffset (deltaX * strength o)%float (deltaY * strength o)%float distance.

Definition notify (cb : option string) (l : list string) : list string :=
  match cb with Some name => l ++ [name] | None => l end.

(** [handleMouseLeave()]. *)
Definition handleMouseLeave (o : Options) (target : option HTMLElement)
    (s : State) : State :=
  match target with
  | None => s
  | Some element =>
      mkState false (animationFrame s) (next_handle s) (pending s)
              (listeners s)
              (engine s ++ [to element 0 0 (speed o) (ease o)])
              (notify (onLeave o) (notified s))
  end.

Definition cancelAnimationFrame (h : nat) (p : list (nat * call))
  : list (nat * call) :=
  filter (fun f => negb (Nat.eqb (fst f) h)) p.

(** [handleMouseMove(e)]. *)
Definition handleMouseMove (o : Options) (target : option HTMLElement)
    (e : MouseEvent) (s : State) : State :=
  match target with
  | None => s
  | Some element =>
      let off := calculateOffset o element (clientX e) (clientY e) in
      if (radius o <? distance off)%float
      then handleMouseLeave o target s
      else
        let notified1 :=
          if isActive s then notified s else notify (onEnter o) (notified s) in
        let pending1 :=
          if truthy_handle (animationFrame s)
          then match animationFrame s with
               | Some h => cancelAnimationFrame h (pending s)
               | None => pending s
               end
          else pending s in
        let h := next_handle s in
        mkState true (Some h) (S h)
                (pending1 ++
                   [(h, to element (offset_x off) (offset_y off)
                           (speed o) (ease o))])
                (listeners s) (engine s) notified1
  end.

(** The browser runs the scheduled frame callbacks. *)
Definition animationFrames (s : State) : State :=
  mkState (isActive s) (animationFrame s) (next_handle s) []
          (listeners s) (engine s ++ map snd (pending s)) (notified s).

Definition listener_eqb (a b : string * listener) : bool :=
  String.eqb (fst a) (fst b) &&
  match snd a, snd b with
  | handleMouseMove_l, handleMouseMove_l => true
  | handleMouseLeave_l, handleMouseLeave_l => true
  | _, _ => false
  end.

(** [element.addEventListener]: a listener already present is not added
    again. *)
Definition addEventListener (l : string * listener)
    (ls : list (string * listener)) : list (string * listener) :=
  if existsb (listener_eqb l) ls then ls else ls ++ [l].

(** [enable()]. *)
Definition enable (target : option HTMLElement) (s : State) : State :=
  match target with
  | None => s
  | Some element =>
      mkState (isActive s) (animationFrame s) (next_handle s) (pending s)
              (addEventListener ("mouseleave", handleMouseLeave_l)
                 (addEventListener ("mousemove", handleMouseMove_l)
                    (listeners s)))
              (engine s) (notified s)
  end.

(** [disable()]. *)
Definition disable (target : option HTMLElement) (s : State) : State :=
  match target with
  | None => s
  | Some element =>
      let pending1 :=
        if truthy_handle (animationFrame s)
        then match animationFrame s with
             | Some h => cancelAnimationFrame h (pending s)
             | None => pending s
             end
        else pending s in
      mkState false
              (if truthy_handle (animationFrame s) then None
               else animationFrame s)
              (next_handle s) pending1
              (filter (fun l =>
                 negb (listener_eqb ("mousemove", handleMouseMove_l) l
                       || listener_eqb ("mouseleave", handleMouseLeave_l) l))
                 (listeners s))
              (engine s ++ [set element 0 0])
              (notified s)
  end.

(** What mounting registers: the listeners and every engine call. *)
Definition registered (s : State) : nat :=
  length (listeners s) + length (engine s) + length (pending s).

End UseMagneticEffect.

(** ** composables/animations/useHeroAnimation.ts *)

Module UseHeroAnimation.

Import Gsap MotionConfig.

Record Options : Type := mkOptions {
  title : option HTMLElement;      (* [title.value] when mounted *)
  subtitle : option HTMLElement;
  button : option HTMLElement;
  delay : float                    (* default 0.3 *)
}.

(** The function handed to [useGsapContext]: one timeline and three
    [from] segments, the last two placed with an overlap. *)
Definition setup (o : Options) : UseGsapContext.callback :=
  UseGsapContext.mkCallback
    [ timeline (easing_of smooth);
      timeline_from (title o) 100 0 (duration_of verySlow)
                    (Some (delay o)) None;
      timeline_from (subtitle o) 50 0 (duration_of slow) None (Some "-=0.6");
      timeline_from (button o) 30 0 (duration_of normal) None (Some "-=0.4") ]
    None.

Definition context_options (o : Options) : UseGsapContext.Options :=
  UseGsapContext.mkOptions (Some (setup o)) None.

Record State : Type := mkState {
  isPlaying : bool;
  isComplete : bool;
  context : UseGsapContext.State
}.

Definition initial : State := mkState false false UseGsapContext.initial.

Definition mount (o : Options) (s : State) : State :=
  mkState (isPlaying s) (isComplete s)
          (UseGsapContext.onMounted (context_options o) (context s)).

(** The timeline's [onStart] and [onComplete]. *)
Definition onStart (s : State) : State :=
  mkState true (isComplete s) (context s).

Definition onComplete (s : State) : State :=
  mkState false true (context s).

End UseHeroAnimation.

(** ** composables/animations/useScrollReveal.ts *)

Module UseScrollReveal.

Import Gsap MotionConfig.

(** [targets.value : HTMLElement | HTMLElement[] | null]. *)
Inductive Targets : Type :=
| Null
| Single (element : HTMLElement)
| Many (elements : list HTMLElement).

(** The keys of [Partial<ScrollTrigger.Vars>] that collide with those the
    composable writes itself. *)
Record ScrollTriggerVars : Type := mkVars {
  vars_start : option string;
  vars_onEnter : option string
}.

Record Options : Type := mkOptions {
  targets : Targets;
  stagger : float;                            (* default 0.2 *)
  y : float;                                  (* default 60 *)
  scrollTrigger : option ScrollTriggerVars    (* default: absent *)
}.

(** [Array.isArray(targets.value) ? targets.value : [targets.value]]. *)
Definition elements (t : Targets) : list (option HTMLElement) :=
  match t with
  | Many es => map Some es
  | Single e => [Some e]
  | Null => [None]
  end.

(** The object spread [...scrollTriggerConfig] comes last and wins. *)
Definition start_of (c : option ScrollTriggerVars) : string :=
  match c with
  | Some v => match vars_start v with
              | Some s => s
              | None => scrollTrigger_start
              end
  | None => scrollTrigger_start
  end.

Definition onEnter_of (c : option ScrollTriggerVars) : handler :=
  match c with
  | Some v => match vars_onEnter v with
              | Some l => Custom l
              | None => SetIsTriggered
              end
  | None => SetIsTriggered
  end.

(** The function handed to [useGsapContext]. *)
Definition setup (o : Options) : UseGsapContext.callback :=
  UseGsapContext.mkCallback
    match elements (targets o) with
    | [] => []
    | None :: _ => []
    | Some first :: _ =>
        [ from (elements (targets o)) (Some first)
               (start_of (scrollTrigger o)) (onEnter_of (scrollTrigger o))
               (y o) 0 (stagger o) (duration_of slow) (easing_of smooth) ]
    end
    None.

Definition context_options (o : Options) : UseGsapContext.Options :=
  UseGsapContext.mkOptions (Some (setup o)) None.

Record State : Type := mkState {
  isTriggered : bool;
  context : UseGsapContext.State
}.

Definition initial : State := mkState false UseGsapContext.initial.

(** Does a live engine call carry the composable's own [onEnter]? *)
Definition sets_flag (c : call) : bool :=
  match c with
  | from _ _ _ SetIsTriggered _ _ _ _ _ => true
  | _ => false
  end.

(** What the component and the scroll trigger can do to the composable. *)
Inductive event : Type :=
| Mount | Unmount                  (* lifecycle of the owning component *)
| Enter | Leave | EnterBack | LeaveBack.   (* scroll-trigger crossings *)

Definition deliver (o : Options) (s : State) (e : event) : State :=
  match e with
  | Mount =>
      mkState (isTriggered s)
              (UseGsapContext.onMounted (context_options o) (context s))
  | Unmount =>
      mkState (isTriggered s)
              (UseGsapContext.onBeforeUnmount (context_options o) (context s))
  | Enter =>
      if existsb sets_flag (UseGsapContext.live (context s))
      then mkState true (context s)
      else s
  | Leave => s
  | EnterBack => s
  | LeaveBack => s
  end.

Definition run (o : Options) (es : list event) (s : State) : State :=
  fold_left (deliver o) es s.

Definition default_policy (o : Options) : Prop := scrollTrigger o = None.

(** The crossings for which the composable installs no handler. *)
Definition other_crossing (e : event) : Prop :=
  e = Leave \/ e = EnterBack \/ e = LeaveBack.

End UseScrollReveal.

(** ** composables/lab/useComponentRegistry.ts *)

Module Registry.

Inductive ComponentCategory : Type :=
  buttons | cards | sections | forms | text | navigation | overlays.

Inductive Complexity : Type := beginner | intermediate | advanced.

Inductive AnimationType : Type :=
  hover | scroll | click | entrance | exit | loop | stagger.

Inductive GsapFeature : Type :=
  timeline | scrollTrigger | splitText | draggable | morphSVG | customEase.

(** *** The text of the registry *)

(** A UTF-16 code unit of the text the registry and its queries hold:
    the Latin-1 range, and the three forms of the Greek sigma, the one
    letter whose lower-casing depends on its neighbours. *)
Inductive code_unit : Type :=
| Latin (a : ascii)   (* U+0000 .. U+00FF *)
| CapitalSigma        (* U+03A3 *)
| FinalSigma          (* U+03C2 *)
| SmallSigma.         (* U+03C3 *)

Definition jsstring : Type := list code_unit.

(** A literal: each character of [s] as the Latin-1 unit of its value. *)
Definition js (s : string) : jsstring := map Latin (list_ascii_of_string s).

(** The value of a code unit. *)
Definition code (u : code_unit) : N :=
  match u with
  | Latin a => N_of_ascii a
  | CapitalSigma => 931
  | FinalSigma => 962
  | SmallSigma => 963
  end.

Definition unit_eqb (u v : code_unit) : bool := N.eqb (code u) (code v).

(** [a === b] on strings. *)
Fixpoint jsstring_eqb (a b : jsstring) : bool :=
  match a, b with
  | [], [] => true
  | u :: a', v :: b' => unit_eqb u v && jsstring_eqb a' b'
  | _, _ => false
  end.

(** The order of strings by code units, which the default comparator of
    [Array.prototype.sort] uses. *)
Fixpoint jsstring_compare (a b : jsstring) : comparison :=
  match a, b with
  | [], [] => Eq
  | [], _ :: _ => Lt
  | _ :: _, [] => Gt
  | u :: a', v :: b' =>
      match N.compare (code u) (code v) with
      | Eq => jsstring_compare a' b'
      | Lt => Lt
      | Gt => Gt
      end
  end.

Definition jsstring_ltb (a b : jsstring) : bool :=
  match jsstring_compare a b with Lt => true | _ => false end.

Definition jsstring_leb (a b : jsstring) : bool :=
  match jsstring_compare a b with Gt => false | _ => true end.

(** [ComponentMeta]; the lazy [component] loader is kept as the path it
    imports. *)
Record ComponentMeta : Type := mkMeta {
  id : jsstring;
  name : jsstring;
  category : ComponentCategory;
  description : jsstring;
  tags : list jsstring;
  complexity : Complexity;
  animationType : list AnimationType;
  gsapFeatures : list GsapFeature;
  component : jsstring
}.

(** The registry as it ships: every entry is commented out. *)
Definition COMPONENT_REGISTRY : list ComponentMeta := [].

(** *** [String.prototype.toLowerCase] *)

(** Lower-casing one code unit below 256: the letters A-Z and the
    Latin-1 capitals (all of 192-222 but the multiplication sign 215)
    move up by 32, everything else stays. *)
Definition toLowerCase_unit (c : ascii) : ascii :=
  let n := nat_of_ascii c in
  if ((65 <=? n)%nat && (n <=? 90)%nat)
     || ((192 <=? n)%nat && (n <=? 214)%nat)
     || ((216 <=? n)%nat && (n <=? 222)%nat)
  then ascii_of_nat (n + 32)
  else c.

(** The lower-case form a code unit has when nothing around it matters. *)
Definition lower_unit (u : code_unit) : code_unit :=
  match u with
  | Latin a => Latin (toLowerCase_unit a)
  | CapitalSigma => SmallSigma
  | FinalSigma => FinalSigma
  | SmallSigma => SmallSigma
  end.

(** The Unicode property [Cased]: in Latin-1 the letters, the ordinal
    indicators and the micro sign. *)
Definition cased (u : code_unit) : bool :=
  match u with
  | Latin a =>
      let n := nat_of_ascii a in
      ((65 <=? n)%nat && (n <=? 90)%nat)
      || ((97 <=? n)%nat && (n <=? 122)%nat)
      || (n =? 170)%nat || (n =? 181)%nat || (n =? 186)%nat
      || ((192 <=? n)%nat && (n <=? 214)%nat)
      || ((216 <=? n)%nat && (n <=? 246)%nat)
      || ((248 <=? n)%nat && (n <=? 255)%nat)
  | CapitalSigma => true
  | FinalSigma => true
  | SmallSigma => true
  end.

(** The Unicode property [Case_Ignorable]: in Latin-1 the apostrophe,
    full stop, colon, circumflex, grave, diaeresis, soft hyphen, macron,
    acute, middle dot and cedilla. *)
Definition case_ignorable (u : code_unit) : bool :=
  match u with
  | Latin a =>
      let n := nat_of_ascii a in
      (n =? 39)%nat || (n =? 46)%nat || (n =? 58)%nat || (n =? 94)%nat
      || (n =? 96)%nat || (n =? 168)%nat || (n =? 173)%nat || (n =? 175)%nat
      || (n =? 180)%nat || (n =? 183)%nat || (n =? 184)%nat
  | CapitalSigma => false
  | FinalSigma => false
  | SmallSigma => false
  end.

(** Is what follows a run of case-ignorable units and then a cased one? *)
Fixpoint cased_follows (rest : jsstring) : bool :=
  match rest with
  | [] => false
  | u :: rest' => if case_ignorable u then cased_follows rest' else cased u
  end.

(** Lower-casing from left to right.  [after_cased] tells whether what
    precedes is a cased unit and then a run of case-ignorable ones.  A
    capital sigma in that position which no cased unit follows is the
    last letter of a word and becomes the final sigma (the condition
    [Final_Sigma] of the Unicode special casing); every other unit takes
    its own lower-case form. *)
Fixpoint lower_from (after_cased : bool) (s : jsstring) : jsstring :=
  match s with
  | [] => []
  | u :: rest =>
      (match u with
       | CapitalSigma =>
           if after_cased && negb (cased_follows rest)
           then FinalSigma else SmallSigma
       | _ => lower_unit u
       end)
      :: lower_from (if case_ignorable u then after_cased else cased u) rest
  end.

(** [s.toLowerCase()]. *)
Definition toLowerCase (s : jsstring) : jsstring := lower_from false s.

(** [s.startsWith(search)]. *)
Fixpoint startsWith (s search : jsstring) : bool :=
  match search, s with
  | [], _ => true
  | _ :: _, [] => false
  | c :: search', d :: s' => unit_eqb c d && startsWith s' search'
  end.

(** [s.includes(search)]: [search] occurs in [s] at some position. *)
Fixpoint includes (s search : jsstring) : bool :=
  startsWith s search ||
  match s with
  | [] => false
  | _ :: s' => includes s' search
  end.

Section Queries.

(** The module-level constant the queries close over. *)
Variable registry : list ComponentMeta.

Definition getAllComponents : list ComponentMeta := registry.

Definition category_eqb (a b : ComponentCategory) : bool :=
  match a, b with
  | buttons, buttons | cards, cards | sections, sections
  | forms, forms | text, text | navigation, navigation
  | overlays, overlays => true
  | _, _ => false
  end.

Definition getByCategory (c : ComponentCategory) : list ComponentMeta :=
  filter (fun m => category_eqb (category m) c) registry.

Definition getById (i : jsstring) : option ComponentMeta :=
  find (fun m => jsstring_eqb (id m) i) registry.

Definition getByTags (ts : list jsstring) : list ComponentMeta :=
  filter (fun m =>
            existsb (fun t => existsb (jsstring_eqb t) (tags m)) ts)
         registry.

(** The predicate of [search]'s filter. *)
Definition matches (lowerQuery : jsstring) (c : ComponentMeta) : bool :=
  includes (toLowerCase (name c)) lowerQuery
  || includes (toLowerCase (description c)) lowerQuery
  || existsb (fun tag => includes (toLowerCase tag) lowerQuery) (tags c).

(** [search(query)]. *)
Definition search (query : jsstring) : list ComponentMeta :=
  let lowerQuery := toLowerCase query in
  filter (matches lowerQuery) registry.

End Queries.

(** *** What the specification calls a case-insensitive substring *)

(** Two strings are equal up to letter case. *)
Fixpoint same_ignoring_case (a b : jsstring) : Prop :=
  match a, b with
  | [], [] => True
  | c :: a', d :: b' =>
      lower_unit c = lower_unit d /\ same_ignoring_case a' b'
  | _, _ => False
  end.

(** [query] occurs in [s] up to letter case: some contiguous part of [s]
    equals [query] up to case. *)
Definition contains_ignoring_case (s query : jsstring) : Prop :=
  exists before part after : jsstring,
    s = before ++ part ++ after /\ same_ignoring_case part query.

(** The entries the specification says [search] selects. *)
Definition selected (query : jsstring) (c : ComponentMeta) : Prop :=
  contains_ignoring_case (name c) query
  \/ contains_ignoring_case (description c) query
  \/ exists tag, In tag (tags c) /\ contains_ignoring_case tag query.

(** Text within the Latin-1 range. *)
Definition latin1 (s : jsstring) : Prop :=
  forall u, In u s -> exists a, u = Latin a.

Definition latin1_entry (c : ComponentMeta) : Prop :=
  latin1 (name c) /\ latin1 (description c)
  /\ forall tag, In tag (tags c) -> latin1 tag.

End Registry.

(** ** The tier names the specification enumerates *)

Module Tiers.

Definition duration_tiers : list string :=
  [ "instant"; "fast"; "normal"; "slow"; "verySlow" ].

Definition easing_tiers : list string :=
  [ "linear"; "smooth"; "smoothIn"; "smoothInOut"; "elastic"; "bounce";
    "expo"; "back" ].

Definition delay_tiers : list string :=
  [ "none"; "micro"; "tiny"; "small"; "medium"; "large" ].

Definition UnknownTierError : string := "UnknownTierError".

(** A call ends the way a lookup without any error path ends: with the
    own property, or else with what the prototype chain gives. *)
Definition falls_through {A : Type} (key : string)
    (r : completion (property A)) : Prop :=
  r = Normal (Inherited key) \/ r = Normal Undefined.

End Tiers.

(** ** The centre of an element's box, as the specification speaks of it *)

Module Geometry.

Import Gsap.

Definition center_x (element : HTMLElement) : float :=
  (rect_left (rect element) + rect_width (rect element) / 2)%float.

Definition center_y (element : HTMLElement) : float :=
  (rect_top (rect element) + rect_height (rect element) / 2)%float.

(** The Euclidean length of [(dx, dy)] in binary64 arithmetic. *)
Definition norm (dx dy : float) : float :=
  PrimFloat.sqrt (dx * dx + dy * dy)%float.

End Geometry.

(** ** useComponentRegistry.ts: the remaining queries *)

Module RegistryQueries.

Import Registry.

Definition complexity_eqb (a b : Complexity) : bool :=
  match a, b with
  | beginner, beginner | intermediate, intermediate | advanced, advanced => true
  | _, _ => false
  end.

(** [getByComplexity(complexity)]. *)
Definition getByComplexity (registry : list ComponentMeta) (c : Complexity)
  : list ComponentMeta :=
  filter (fun m => complexity_eqb (complexity m) c) registry.

(** [CategoryInfo]; the optional [icon] is never set. *)
Record CategoryInfo : Type := mkInfo {
  info_id : ComponentCategory;
  info_name : string;
  info_description : string;
  count : nat
}.

(** The local object [categories] of [getAllCategories]: its entries in
    insertion order, each value with its [id], [name] and [description]. *)
Definition categories
  : list (ComponentCategory * (ComponentCategory * string * string)) :=
  [ (buttons, (buttons, "Buttons",
               "Interactive buttons with micro-interactions"));
    (cards, (cards, "Cards", "Cards with hover effects and transitions"));
    (sections, (sections, "Sections",
                "Hero sections and layouts with entrance animations"));
    (forms, (forms, "Forms", "Inputs and forms with animated feedback"));
    (text, (text, "Text", "Typographic effects and text animations"));
    (navigation, (navigation, "Navigation",
                  "Menus and navigation with transitions"));
    (overlays, (overlays, "Overlays",
                "Modals, drawers and animated overlays")) ].

(** [getAllCategories()]: [Object.entries(categories).map(...)], the count
    taken with [getByCategory(key).length]. *)
Definition getAllCategories (registry : list ComponentMeta)
  : list CategoryInfo :=
  map (fun entry =>
         match entry with
         | (key, (i, n, d)) =>
             mkInfo i n d (length (getByCategory registry key))
         end)
      categories.

(** [Set.prototype.add]: insertion order, no second copy. *)
Definition Set_add (t : jsstring) (s : list jsstring) : list jsstring :=
  if existsb (jsstring_eqb t) s then s else s ++ [t].

(** The [Set] that the two nested [forEach] loops of [getAllTags] fill. *)
Definition collect_tags (registry : list ComponentMeta) : list jsstring :=
  fold_left (fun s c => fold_left (fun s' tag => Set_add tag s') (tags c) s)
            registry [].

(** [Array.prototype.sort()] without a comparator orders strings by their
    code units.  The elements sorted here are pairwise different, so the
    sorted array does not depend on the sorting algorithm; insertion is
    used. *)
Fixpoint insert_sorted (t : jsstring) (l : list jsstring) : list jsstring :=
  match l with
  | [] => [t]
  | u :: l' => if jsstring_leb t u then t :: l else u :: insert_sorted t l'
  end.

Definition sort (l : list jsstring) : list jsstring :=
  fold_right insert_sorted [] l.

(** [getAllTags()]. *)
Definition getAllTags (registry : list ComponentMeta) : list jsstring :=
  sort (collect_tags registry).

Definition total_count (infos : list CategoryInfo) : nat :=
  fold_right (fun i n => count i + n) 0 infos.

End RegistryQueries.

(** ** useGsapContext.ts: what a component can do with one context *)

Module ContextRuns.

Import Gsap UseGsapContext.

(** The lifecycle hook [onMounted] and the two functions of the returned
    handle; [onBeforeUnmount] is [revert]. *)
Inductive api : Type :=
| Mount
| Add (animation : callback)
| Revert.

Definition apply (o : Options) (s : State) (a : api) : State :=
  match a with
  | Mount => onMounted o s
  | Add animation => fst (add animation s)
  | Revert => fst (revert o s)
  end.

Definition run (o : Options) (calls : list api) (s : State) : State :=
  fold_left (apply o) calls s.

Definition is_created (e : event) : bool :=
  match e with ContextCreated _ => true | _ => false end.

Definition is_reverted (e : event) : bool :=
  match e with ContextRevert _ => true | _ => false end.

Definition created (s : State) : nat := length (filter is_created (trace s)).
Definition reverted (s : State) : nat := length (filter is_reverted (trace s)).

Definition is_open (s : State) : bool :=
  match ctx s with Some _ => true | None => false end.

Definition mounts (calls : list api) : nat :=
  length (filter (fun a => match a with Mount => true | _ => false end) calls).

(** What every call of the handle keeps true. *)
Definition context_invariant (o : Options) (s : State) : Prop :=
  isReady s = is_open s
  /\ reverted s + (if is_open s then 1 else 0) <= created s
  /\ onRevert_runs s
     = match onRevert o with Some _ => reverted s | None => 0 end.

End ContextRuns.

(** ** useMagneticEffect.ts: the events one mounted effect sees *)

Module MagneticRuns.

Import Gsap UseMagneticEffect.

Inductive input : Type :=
| Enable | Disable                (* [enable()], [disable()] *)
| Move (e : MouseEvent)           (* the element receives [mousemove] *)
| Leave                           (* the element receives [mouseleave] *)
| Frame.                          (* the browser runs the frame callbacks *)

Definition listening (l : string * listener) (s : State) : bool :=
  existsb (listener_eqb l) (listeners s).

(** An event reaches its handler only while the listener is attached. *)
Definition react (o : Options) (target : option HTMLElement)
    (s : State) (i : input) : State :=
  match i with
  | Enable => enable target s
  | Disable => disable target s
  | Move e =>
      if listening ("mousemove", handleMouseMove_l) s
      then handleMouseMove o target e s else s
  | Leave =>
      if listening ("mouseleave", handleMouseLeave_l) s
      then handleMouseLeave o target s else s
  | Frame => animationFrames s
  end.

Definition run (o : Options) (target : option HTMLElement)
    (inputs : list input) (s : State) : State :=
  fold_left (react o target) inputs s.

(** At most one frame callback is scheduled, and it is the one whose
    handle [animationFrame] holds. *)
Definition single_frame (s : State) : Prop :=
  0 < next_handle s
  /\ (pending s = []
      \/ exists h c, pending s = [(h, c)] /\ animationFrame s = Some h /\ 0 < h).

(** The pointer is within the radius of the element's centre, as
    [handleMouseMove] tests it. *)
Definition near (o : Options) (element : HTMLElement) (e : MouseEvent) : bool :=
  negb (radius o <? distance (calculateOffset o element (clientX e) (clientY e)))%float.

End MagneticRuns.

(** * Properties *)

(** ** Config table *)

Section ObjectLookup.

Variable A : Type.
Variable o : object A.

Lemma getOwn_absent (key : string) :
  ~ In key (keys o) -> getOwn o key = None.
Proof.
  unfold keys. induction o as [|[k v] o' IH]; cbn; intros Hn; [reflexivity|].
  destruct (String.eqb_spec k key) as [->|Hne].
  - exfalso. apply Hn. now left.
  - apply IH. intros Hin. apply Hn. now right.
Qed.

Lemma getOwn_present (key : string) :
  In key (keys o) -> exists v, getOwn o key = Some v /\ In (key, v) o.
Proof.
  unfold keys. induction o as [|[k v] o' IH]; cbn; intros Hin; [easy|].
  destruct (String.eqb_spec k key) as [->|Hne].
  - exists v. split; [reflexivity | now left].
  - destruct Hin as [Heq|Hin]; [congruence|].
    destruct (IH Hin) as (v' & Hv & Hi). exists v'. split; [exact Hv | now right].
Qed.

Lemma get_present (key : string) :
  In key (keys o) -> exists v, get o key = Own v /\ In (key, v) o.
Proof.
  intros Hin. destruct (getOwn_present key Hin) as (v & Hv & Hi).
  exists v. unfold get. rewrite Hv. now split.
Qed.

Lemma get_absent (key : string) :
  ~ In key (keys o) -> get o key = Inherited key \/ get o key = Undefined.
Proof.
  intros Hn. unfold get. rewrite (getOwn_absent key Hn).
  destruct (existsb _ _); [now left | now right].
Qed.

End ObjectLookup.

Section ConfigAccessor.

Import MotionConfig Tiers.

Lemma duration_keys : keys durations = duration_tiers.
Proof. reflexivity. Qed.

Lemma easing_keys : keys easings = easing_tiers.
Proof. reflexivity. Qed.

Lemma delay_keys : keys delays = delay_tiers.
Proof. reflexivity. Qed.

(** C1 (as the code has it): a tier name of the enumerated set yields
    the configured value; any other name yields no error at all: the
    lookup returns [undefined], or the member of [Object.prototype] it
    happens to name.  This holds for [getDuration], [getEasing] and
    [getDelay] alike. *)
Theorem tier_lookup_total (key : string) :
  (In key duration_tiers ->
     exists d, getDuration key = Normal (Own d) /\ In (key, d) durations)
  /\ (In key easing_tiers ->
     exists e, getEasing key = Normal (Own e) /\ In (key, e) easings)
  /\ (In key delay_tiers ->
     exists d, getDelay key = Normal (Own d) /\ In (key, d) delays)
  /\ (~ In key duration_tiers -> falls_through key (getDuration key))
  /\ (~ In key easing_tiers -> falls_through key (getEasing key))
  /\ (~ In key delay_tiers -> falls_through key (getDelay key)).
Proof.
  unfold getDuration, getEasing, getDelay, falls_through.
  rewrite <- duration_keys, <- easing_keys, <- delay_keys.
  repeat split; intros H.
  - destruct (get_present _ _ H) as (v & -> & Hi). now exists v.
  - destruct (get_present _ _ H) as (v & -> & Hi). now exists v.
  - destruct (get_present _ _ H) as (v & -> & Hi). now exists v.
  - destruct (get_absent _ _ H) as [->| ->]; [now left | now right].
  - destruct (get_absent _ _ H) as [->| ->]; [now left | now right].
  - destruct (get_absent _ _ H) as [->| ->]; [now left | now right].
Qed.

Lemma tier_lookup_total_witness :
  (exists d, getDuration "slow" = Normal (Own d) /\ In ("slow", d) durations)
  /\ falls_through "slow" (getEasing "slow")
  /\ falls_through "toString" (getDelay "toString").
Proof.
  destruct (tier_lookup_total "slow") as (Hd & _ & _ & _ & He & _).
  destruct (tier_lookup_total "toString") as (_ & _ & _ & _ & _ & Hl).
  split; [apply Hd; vm_compute; tauto|].
  split; [apply He | apply Hl]; vm_compute; intuition discriminate.
Defined.

(** C1 as stated fails: ["turbo"] is no tier of any table, yet none of
    the three lookups ends in a throw; each returns [undefined]. *)
Lemma unknown_tier_is_undefined :
  ~ In "turbo" duration_tiers /\ ~ In "turbo" easing_tiers
  /\ ~ In "turbo" delay_tiers
  /\ getDuration "turbo" = Normal Undefined
  /\ getEasing "turbo" = Normal Undefined
  /\ getDelay "turbo" = Normal Undefined
  /\ ~ (exists m, getDuration "turbo" = Throw (Error UnknownTierError m))
  /\ ~ (exists m, getEasing "turbo" = Throw (Error UnknownTierError m))
  /\ ~ (exists m, getDelay "turbo" = Throw (Error UnknownTierError m)).
Proof.
  repeat split; try reflexivity;
    try (cbn; intuition discriminate);
    intros [m Hm]; discriminate Hm.
Qed.

End ConfigAccessor.

(** ** Reduced motion *)

Section AdjustedDuration.

Import MotionConfig UseMotionConfig.

(** The static key type names exactly the tiers of the enumeration. *)
Lemma duration_key_enumerates (key : string) :
  In key Tiers.duration_tiers <-> exists k, duration_key k = key.
Proof.
  split.
  - cbn. intros [H|[H|[H|[H|[H|[]]]]]]; subst key;
      [exists instant | exists fast | exists normal | exists slow
       | exists verySlow]; reflexivity.
  - intros [k <-]. destruct k; cbn; tauto.
Qed.

(** C4: for every duration tier, [getAdjustedDuration] is the base
    duration divided by 10 when the instance's reduced-motion flag is
    set, and the base duration itself otherwise. *)
Theorem getAdjustedDuration_tenth
    (w : World) (i : Instance) (k : DurationKey) :
  exists d : float,
    getDuration (duration_key k) = Normal (Own d)
    /\ getAdjustedDuration w i (duration_key k)
       = Normal (Own (if read w (prefersReducedMotion i)
                      then (d / 10)%float else d)).
Proof.
  unfold getAdjustedDuration.
  destruct k; cbn [duration_key];
    (eexists; split; [reflexivity|]);
    destruct (read w (prefersReducedMotion i)); reflexivity.
Qed.

End AdjustedDuration.

Section ReducedMotionFlag.

Import UseMotionConfig.

Lemma assign_length (a : nat) (b : bool) (cells : list bool) :
  length (assign a b cells) = length cells.
Proof.
  revert a. induction cells as [|c cells IH]; intros [|a]; cbn; auto.
Qed.

Lemma nth_assign_same (a : nat) (b : bool) (cells : list bool) :
  a < length cells -> nth a (assign a b cells) false = b.
Proof.
  revert a. induction cells as [|c cells IH]; intros [|a]; cbn; intros H;
    try lia; auto. apply IH. lia.
Qed.

Lemma nth_assign_other (a a' : nat) (b : bool) (cells : list bool) :
  a <> a' -> nth a' (assign a b cells) false = nth a' cells false.
Proof.
  revert a a'. induction cells as [|c cells IH]; intros [|a] [|a'] H; cbn;
    try congruence; auto.
Qed.

Lemma nth_assign_fresh (b : bool) (cells : list bool) :
  nth (length cells) (assign (length cells) b (cells ++ [false])) false = b.
Proof. apply nth_assign_same. rewrite length_app. cbn. lia. Qed.

(** Running the listeners [ls] with the event value [m]. *)
Lemma listeners_run (m : bool) (ls : list nat) (w : World) :
  let w' := fold_left (fun w0 a => write a m w0) ls w in
  change_listeners w' = change_listeners w
  /\ length (refs w') = length (refs w)
  /\ (forall a, In a ls -> a < length (refs w) -> read w' a = m)
  /\ (forall a, ~ In a ls -> read w' a = read w a).
Proof.
  revert w. induction ls as [|l ls IH]; intros w; cbn.
  - repeat split; tauto.
  - destruct (IH (write l m w)) as (Hl & Hlen & Hin & Hout).
    cbn in Hl, Hlen. rewrite assign_length in Hlen.
    repeat split; auto.
    + intros a [->|Ha] Hlt.
      * destruct (in_dec Nat.eq_dec a ls) as [Hi|Hn].
        -- apply Hin; [exact Hi | cbn; now rewrite assign_length].
        -- rewrite (Hout a Hn). unfold read, write; cbn.
           now apply nth_assign_same.
      * apply Hin; [exact Ha | cbn; now rewrite assign_length].
    + intros a Hn. rewrite Hout by tauto.
      unfold read, write; cbn. apply nth_assign_other. intros ->. tauto.
Qed.

Lemma calls_snoc (steps : list step) (s : step) :
  calls (steps ++ [s]) = calls steps + (if is_call s then 1 else 0).
Proof.
  unfold calls. rewrite filter_app, length_app. cbn.
  destruct (is_call s); reflexivity.
Qed.

(** The shape of every reachable world. *)
Lemma run_shape (client : bool) (steps : list step) :
  length (refs (run client steps)) = calls steps
  /\ change_listeners (run client steps)
     = (if client then seq 0 (calls steps) else []).
Proof.
  unfold run. induction steps as [|s steps IH] using rev_ind.
  - destruct client; now cbn.
  - rewrite fold_left_app, calls_snoc. cbn [fold_left].
    destruct IH as [IHr IHl]. destruct s as [m|m]; cbn [exec is_call].
    + unfold useMotionConfig. destruct client; cbn.
      * rewrite assign_length, length_app, IHr, IHl. cbn.
        split; [reflexivity|]. now rewrite seq_app.
      * rewrite length_app, IHr, IHl. now cbn.
    + unfold dispatchChange.
      destruct (listeners_run m (change_listeners (fold_left (exec client) steps empty))
                              (fold_left (exec client) steps empty))
        as (Hl & Hlen & _).
      rewrite Hl, Hlen, IHr, IHl, Nat.add_0_r. now split.
Qed.

(** C3 (as the code has it): the flag is state of each accessor
    instance.  After any history of calls and change events there is one
    cell per call and, on the client, one listener per call, bound to
    that call's cell; a further call creates a fresh cell, initialises it
    from the preference as it is at that call, and leaves the earlier
    cells alone; a change event assigns its value to the cell of every
    listener and to no other cell. *)
Theorem reduced_motion_flag_per_instance (client : bool) (steps : list step) :
  let w := run client steps in
  length (refs w) = calls steps
  /\ change_listeners w = (if client then seq 0 (calls steps) else [])
  /\ (forall m, prefersReducedMotion (fst (useMotionConfig client m w))
                = calls steps
                /\ read (snd (useMotionConfig client m w)) (calls steps)
                   = (client && m))
  /\ (forall m a, a < calls steps ->
        read (snd (useMotionConfig client m w)) a = read w a)
  /\ (forall m a, In a (change_listeners w) -> read (dispatchChange m w) a = m)
  /\ (forall m a, ~ In a (change_listeners w) ->
        read (dispatchChange m w) a = read w a).
Proof.
  intros w. destruct (run_shape client steps) as [Hr Hl]. fold w in Hr, Hl.
  split; [exact Hr|]. split; [exact Hl|].
  split; [|split; [|split]].
  - intros m. unfold useMotionConfig, read.
    destruct client; cbn; rewrite <- Hr.
    + split; [reflexivity | apply nth_assign_fresh].
    + split; [reflexivity|]. now rewrite app_nth2, Nat.sub_diag by lia.
  - intros m a Ha. unfold useMotionConfig, read.
    destruct client; cbn.
    + rewrite nth_assign_other by lia. apply app_nth1. lia.
    + apply app_nth1. lia.
  - intros m a Hin.
    destruct (listeners_run m (change_listeners w) w) as (_ & _ & Hset & _).
    apply Hset; [exact Hin|].
    rewrite Hl in Hin. destruct client; [|easy].
    apply in_seq in Hin. lia.
  - intros m a Hn.
    destruct (listeners_run m (change_listeners w) w) as (_ & _ & _ & Hkeep).
    now apply Hkeep.
Qed.

Lemma reduced_motion_flag_per_instance_witness :
  let w := run true [Call false; Call true] in
  read (snd (useMotionConfig true true w)) 0 = read w 0
  /\ read (dispatchChange true w) 0 = true
  /\ read (dispatchChange true w) 5 = read w 5.
Proof.
  intros w.
  destruct (reduced_motion_flag_per_instance true [Call false; Call true])
    as (_ & _ & _ & Hold & Hset & Hkeep).
  split; [apply Hold; vm_compute; lia|].
  split; [apply Hset; vm_compute; tauto|].
  apply Hkeep. vm_compute. intuition discriminate.
Defined.

(** C3 as stated fails: two calls of the accessor on the client return
    two different cells and leave two listeners behind, and assigning
    one cell does not show in the other. *)
Lemma two_calls_two_flags :
  let r1 := useMotionConfig true false empty in
  let r2 := useMotionConfig true false (snd r1) in
  prefersReducedMotion (fst r1) <> prefersReducedMotion (fst r2)
  /\ length (refs (snd r2)) = 2
  /\ change_listeners (snd r2) = [0; 1]
  /\ read (write (prefersReducedMotion (fst r2)) true (snd r2))
          (prefersReducedMotion (fst r1)) = false
  /\ read (write (prefersReducedMotion (fst r2)) true (snd r2))
          (prefersReducedMotion (fst r2)) = true.
Proof. cbn. repeat split; congruence. Qed.

(** Between two change events the cells need not agree: each is
    initialised from the preference as it is when its call is made. *)
Remark flags_follow_their_own_call :
  let w := run true [Call false; Call true] in
  read w 0 = false /\ read w 1 = true.
Proof. now cbn. Qed.

End ReducedMotionFlag.

(** ** Scoped animation context *)

Section ScopedContext.

Import Gsap UseGsapContext.

Variable o : Options.

Lemma revert_closes (s : State) : ctx (fst (revert o s)) = None.
Proof.
  unfold revert. destruct (ctx s) eqn:E; [|exact E].
  destruct (onRevert o); reflexivity.
Qed.

Lemma revert_closed (s : State) :
  ctx s = None -> revert o s = (s, Normal tt).
Proof. intros H. unfold revert. now rewrite H. Qed.

(** C5: [revert()] is idempotent.  Whatever the state and the options,
    a second [revert()] right after the first returns normally and
    changes nothing: same context, same flag, same trace of side
    effects, and [onRevert] has run no further time. *)
Theorem revert_idempotent (s : State) :
  let once := fst (revert o s) in
  revert o once = (once, Normal tt)
  /\ trace (fst (revert o once)) = trace once
  /\ onRevert_runs (fst (revert o once)) = onRevert_runs once.
Proof.
  intros once.
  assert (H : revert o once = (once, Normal tt))
    by (apply revert_closed, revert_closes).
  rewrite H. now cbn.
Qed.

(** C6: [add(animation)] after [revert()] returns normally, whatever
    [animation] would have done, and registers nothing: the context
    stays closed, no engine call is live, [isReady] keeps its value, and
    the only effect is one console warning. *)
Theorem add_after_revert (animation : callback) (s : State) :
  let reverted := fst (revert o s) in
  let r := add animation reverted in
  snd r = Normal tt
  /\ ctx (fst r) = None
  /\ live (fst r) = []
  /\ isReady (fst r) = isReady reverted
  /\ trace (fst r)
     = trace reverted ++ [Warn "[useGsapContext] Context not initialized"].
Proof.
  intros reverted r. subst r. unfold add, live.
  rewrite (revert_closes s : ctx reverted = None). now cbn.
Qed.

(** A live context does run the added animation, so the test above is
    not vacuous. *)
Remark add_while_open (animation : callback) (s : State) (recorded : list call) :
  ctx s = Some recorded ->
  live (fst (add animation s)) = recorded ++ creates animation.
Proof. intros H. unfold add, live. now rewrite H. Qed.

Remark revert_runs_onRevert_once (s : State) (recorded : list call) (cb : callback) :
  ctx s = Some recorded -> onRevert o = Some cb ->
  onRevert_runs (fst (revert o s)) = S (onRevert_runs s).
Proof.
  intros H Ho. unfold revert, onRevert_runs. rewrite H, Ho. cbn.
  rewrite <- app_assoc, filter_app, length_app. cbn. lia.
Qed.

End ScopedContext.

(** ** Missing targets *)

Section MissingTarget.

Import Gsap.

(** The magnetic effect does nothing at all without its element. *)
Lemma magnetic_skips_missing_target
    (o : UseMagneticEffect.Options) (e : UseMagneticEffect.MouseEvent)
    (s : UseMagneticEffect.State) :
  UseMagneticEffect.enable None s = s
  /\ UseMagneticEffect.handleMouseMove o None e s = s
  /\ UseMagneticEffect.handleMouseLeave o None s = s
  /\ UseMagneticEffect.disable None s = s.
Proof. now cbn. Qed.

(** The scroll reveal registers nothing for [null] or an empty array. *)
Lemma scroll_reveal_skips_missing_target
    (st y : float) (c : option UseScrollReveal.ScrollTriggerVars) :
  UseGsapContext.creates
    (UseScrollReveal.setup
       (UseScrollReveal.mkOptions UseScrollReveal.Null st y c)) = []
  /\ UseGsapContext.creates
       (UseScrollReveal.setup
          (UseScrollReveal.mkOptions (UseScrollReveal.Many []) st y c)) = [].
Proof. now cbn. Qed.

(** The hero setup has no branch at all: whatever the three references
    hold, it makes the same four engine calls. *)
Lemma hero_setup_unguarded (o : UseHeroAnimation.Options) :
  length (UseGsapContext.creates (UseHeroAnimation.setup o)) = 4
  /\ In (timeline_from (UseHeroAnimation.title o) 100 0 1
                       (Some (UseHeroAnimation.delay o)) None)
        (UseGsapContext.live
           (UseHeroAnimation.context
              (UseHeroAnimation.mount o UseHeroAnimation.initial))).
Proof. split; [reflexivity|]. cbn. right. left. reflexivity. Qed.

(** C2 at the hero entrance: with all three references [null] the setup
    still builds its timeline and adds the three segments, each with a
    [null] target; nothing is skipped. *)
Theorem hero_registers_missing_targets :
  let o := UseHeroAnimation.mkOptions None None None 0.3 in
  UseGsapContext.live
    (UseHeroAnimation.context
       (UseHeroAnimation.mount o UseHeroAnimation.initial))
  = [ timeline "power2.out";
      timeline_from None 100 0 1 (Some 0.3%float) None;
      timeline_from None 50 0 0.6 None (Some "-=0.6");
      timeline_from None 30 0 0.4 None (Some "-=0.4") ].
Proof. reflexivity. Qed.

End MissingTarget.

(** ** Magnetic hover *)

Section FloatOrder.

(** Comparing two binary64 values the other way round mirrors the
    answer; an unordered pair stays unordered. *)
Lemma SFcompare_swap (x y : spec_float) :
  SFcompare y x = option_map CompOpp (SFcompare x y).
Proof.
  destruct x as [sx|sx| |sx mx ex], y as [sy|sy| |sy my ey]; cbn;
    try reflexivity;
    try (destruct sx; reflexivity); try (destruct sy; reflexivity);
    try (destruct sx, sy; reflexivity).
  destruct sx, sy; cbn; try reflexivity;
    rewrite (Z.compare_antisym ey ex);
    destruct (Z.compare ey ex); cbn; try reflexivity;
    change (Pos.compare_cont Eq mx my) with (Pos.compare mx my);
    change (Pos.compare_cont Eq my mx) with (Pos.compare my mx);
    rewrite (Pos.compare_antisym my mx);
    destruct (Pos.compare my mx); reflexivity.
Qed.

Lemma within_is_not_beyond (d r : float) :
  (d <=? r)%float = true -> (r <? d)%float = false.
Proof.
  rewrite leb_spec, ltb_spec. unfold SFleb, SFltb.
  rewrite (SFcompare_swap (Prim2SF d) (Prim2SF r)).
  destruct (SFcompare (Prim2SF d) (Prim2SF r)) as [[| |]|]; cbn; congruence.
Qed.

End FloatOrder.

Section MagneticHover.

Import Gsap Geometry UseMagneticEffect.

Variable o : Options.
Variable element : HTMLElement.

Lemma calculateOffset_center (mouseX mouseY : float) :
  calculateOffset o element mouseX mouseY
  = mkOffset ((mouseX - center_x element) * strength o)%float
             ((mouseY - center_y element) * strength o)%float
             (norm (mouseX - center_x element) (mouseY - center_y element)).
Proof. reflexivity. Qed.

(** C7: with the target present, a pointer whose distance from the
    centre of the target is at most the radius makes [handleMouseMove]
    schedule the tween towards [(pointer - centre) * strength], which
    the engine receives when the frame runs; a pointer farther away than
    the radius makes it do what [handleMouseLeave] does, a tween back to
    [(0, 0)]. *)
Theorem magnetic_offset (e : MouseEvent) (s : State) :
  let dx := (clientX e - center_x element)%float in
  let dy := (clientY e - center_y element)%float in
  let moved := handleMouseMove o (Some element) e s in
  ((norm dx dy <=? radius o)%float = true ->
     let tween :=
       to element (dx * strength o)%float (dy * strength o)%float
          (speed o) (ease o) in
     isActive moved = true
     /\ animationFrame moved = Some (next_handle s)
     /\ (exists kept, pending moved = kept ++ [(next_handle s, tween)])
     /\ engine moved = engine s
     /\ (exists earlier, engine (animationFrames moved) = earlier ++ [tween]))
  /\ ((radius o <? norm dx dy)%float = true ->
     moved = handleMouseLeave o (Some element) s
     /\ isActive moved = false
     /\ pending moved = pending s
     /\ engine moved = engine s ++ [to element 0 0 (speed o) (ease o)]).
Proof.
  intros dx dy moved. subst moved. unfold handleMouseMove.
  rewrite calculateOffset_center. cbn [distance offset_x offset_y].
  fold dx dy. split; intros H.
  - rewrite (within_is_not_beyond H). cbn.
    repeat split; try reflexivity.
    + eexists. reflexivity.
    + rewrite map_app. cbn. rewrite app_assoc. eexists. reflexivity.
  - rewrite H. now cbn.
Qed.

End MagneticHover.

Section MagneticExample.

Import Gsap Geometry UseMagneticEffect.

(** The specification's example: centre [(0, 0)], strength 0.3, radius
    100.  A pointer at [(100, 0)] is within the radius and yields the
    offset [(30, 0)]; a pointer at [(100, 1)] is beyond it and yields
    the reset. *)
Lemma magnetic_offset_witness :
  let button := mkElement 7 (mkRect (-50) (-20) 100 40) in
  (center_x button = 0%float /\ center_y button = 0%float)
  /\ (norm 100 0 <=? radius defaults)%float = true
  /\ (radius defaults <? norm 100 1)%float = true
  /\ (exists kept,
        pending (handleMouseMove defaults (Some button) (mkMouse 100 0) initial)
        = kept ++ [(1, to button 30 0 0.4 "power2.out")])
  /\ engine (handleMouseMove defaults (Some button) (mkMouse 100 1) initial)
     = [to button 0 0 0.4 "power2.out"].
Proof.
  intros button. split; [split; reflexivity|].
  split; [reflexivity|]. split; [reflexivity|].
  destruct (magnetic_offset defaults button (mkMouse 100 0) initial)
    as [Hnear _].
  destruct (magnetic_offset defaults button (mkMouse 100 1) initial)
    as [_ Hfar].
  split.
  - destruct (Hnear eq_refl) as (_ & _ & Hp & _). exact Hp.
  - destruct (Hfar eq_refl) as (_ & _ & _ & He). exact He.
Defined.

End MagneticExample.

(** ** Scroll reveal *)

Section ScrollReveal.

Import Gsap UseScrollReveal.

Variable o : Options.

Lemma deliver_keeps_flag (s : State) (e : event) :
  isTriggered s = true -> isTriggered (deliver o s e) = true.
Proof.
  intros H. destruct e; cbn; auto.
  destruct (existsb _ _); auto.
Qed.

Lemma run_keeps_flag (es : list event) (s : State) :
  isTriggered s = true -> isTriggered (run o es s) = true.
Proof.
  unfold run. revert s. induction es as [|e es IH]; intros s H; cbn; auto.
  apply IH, deliver_keeps_flag, H.
Qed.

Lemma run_other_crossings (es : list event) (s : State) :
  Forall other_crossing es -> run o es s = s.
Proof.
  unfold run. induction 1 as [|e es He _ IH]; cbn; [reflexivity|].
  destruct He as [->|[->| ->]]; exact IH.
Qed.

Lemma mount_registers (first : HTMLElement) (others : list (option HTMLElement)) :
  default_policy o ->
  elements (targets o) = Some first :: others ->
  UseGsapContext.live (context (deliver o initial Mount))
  = [ from (Some first :: others) (Some first) MotionConfig.scrollTrigger_start
           SetIsTriggered (y o) 0 (stagger o)
           (MotionConfig.duration_of MotionConfig.slow)
           (MotionConfig.easing_of MotionConfig.smooth) ].
Proof.
  unfold default_policy. intros Hd He. cbn.
  unfold UseGsapContext.onMounted, UseGsapContext.init, setup. cbn.
  rewrite He, Hd. reflexivity.
Qed.

(** C8: under the default policy and with a target present,
    [isTriggered] starts false, is still false after mounting and after
    any crossings other than [onEnter], is true after the first
    [onEnter], and stays true whatever events follow. *)
Theorem isTriggered_one_way
    (first : HTMLElement) (others : list (option HTMLElement))
    (quiet later : list event) :
  default_policy o ->
  elements (targets o) = Some first :: others ->
  Forall other_crossing quiet ->
  isTriggered initial = false
  /\ isTriggered (run o (Mount :: quiet) initial) = false
  /\ isTriggered (run o (Mount :: quiet ++ [Enter]) initial) = true
  /\ isTriggered (run o (Mount :: quiet ++ Enter :: later) initial) = true.
Proof.
  intros Hd He Hq.
  assert (Hm : forall es,
             run o (Mount :: quiet ++ es) initial
             = run o es (deliver o initial Mount)).
  { intros es. unfold run. cbn [fold_left]. rewrite fold_left_app.
    change (fold_left (deliver o) quiet (deliver o initial Mount))
      with (run o quiet (deliver o initial Mount)).
    now rewrite run_other_crossings. }
  assert (Hfirst : isTriggered (deliver o (deliver o initial Mount) Enter) = true).
  { cbn [deliver]. fold (deliver o initial Mount).
    rewrite (mount_registers Hd He). reflexivity. }
  split; [reflexivity|]. split; [|split].
  - rewrite <- (app_nil_r quiet), Hm. reflexivity.
  - rewrite Hm. exact Hfirst.
  - rewrite Hm. change (run o (Enter :: later) (deliver o initial Mount))
      with (run o later (deliver o (deliver o initial Mount) Enter)).
    apply run_keeps_flag, Hfirst.
Qed.

End ScrollReveal.

Section ScrollRevealExample.

Import Gsap UseScrollReveal.

Lemma isTriggered_one_way_witness :
  let card := mkElement 1 (mkRect 0 0 10 10) in
  let o := mkOptions (Many [card; card]) 0.2 60 None in
  isTriggered (run o [Mount; Leave; LeaveBack] initial) = false
  /\ isTriggered
       (run o [Mount; Leave; LeaveBack; Enter; Leave; Enter; Unmount; Enter]
            initial) = true.
Proof.
  intros card o.
  destruct (@isTriggered_one_way o card [Some card] [Leave; LeaveBack]
              [Leave; Enter; Unmount; Enter])
    as (_ & Hquiet & _ & Hlater).
  - reflexivity.
  - reflexivity.
  - repeat constructor; unfold other_crossing; tauto.
  - split; [exact Hquiet | exact Hlater].
Defined.

End ScrollRevealExample.

(** ** Component registry *)

Section TextOrder.

Import Registry.

Lemma code_inj (u v : code_unit) : code u = code v -> u = v.
Proof.
  destruct u as [a| | |], v as [b| | |]; cbn; intros H;
    try reflexivity; try discriminate H;
    try (pose proof (N_ascii_bounded a); lia);
    try (pose proof (N_ascii_bounded b); lia).
  rewrite <- (ascii_N_embedding a), <- (ascii_N_embedding b). now rewrite H.
Qed.

Lemma unit_eqb_eq (u v : code_unit) : unit_eqb u v = true <-> u = v.
Proof.
  unfold unit_eqb. rewrite N.eqb_eq. split; [apply code_inj | now intros ->].
Qed.

Lemma jsstring_eqb_eq (a b : jsstring) : jsstring_eqb a b = true <-> a = b.
Proof.
  revert b. induction a as [|u a IH]; intros [|v b]; cbn;
    try (split; [reflexivity || discriminate | reflexivity || discriminate]).
  rewrite andb_true_iff, unit_eqb_eq, IH. split.
  - now intros [-> ->].
  - intros H. injection H as -> ->. now split.
Qed.

Lemma jsstring_eqb_refl (a : jsstring) : jsstring_eqb a a = true.
Proof. now apply jsstring_eqb_eq. Qed.

Lemma jsstring_compare_eq (a b : jsstring) :
  jsstring_compare a b = Eq -> a = b.
Proof.
  revert b. induction a as [|u a IH]; intros [|v b]; cbn;
    try reflexivity; try discriminate.
  destruct (N.compare (code u) (code v)) eqn:E; try discriminate.
  intros H. apply N.compare_eq in E. apply code_inj in E.
  now rewrite E, (IH b H).
Qed.

Lemma jsstring_compare_antisym (a b : jsstring) :
  jsstring_compare a b = CompOpp (jsstring_compare b a).
Proof.
  revert b. induction a as [|u a IH]; intros [|v b]; cbn; try reflexivity.
  rewrite (N.compare_antisym (code u) (code v)).
  destruct (N.compare (code u) (code v)); cbn; [apply IH | reflexivity..].
Qed.

Lemma jsstring_leb_total (a b : jsstring) :
  jsstring_leb a b = true \/ jsstring_leb b a = true.
Proof.
  unfold jsstring_leb. rewrite (jsstring_compare_antisym a b).
  destruct (jsstring_compare b a); cbn; tauto.
Qed.

(** Two different strings in the right order are in strict order. *)
Lemma leb_ltb (a b : jsstring) :
  jsstring_leb a b = true -> a <> b -> jsstring_ltb a b = true.
Proof.
  unfold jsstring_leb, jsstring_ltb. intros Hle Hne.
  destruct (jsstring_compare a b) eqn:E; [|reflexivity|discriminate].
  apply jsstring_compare_eq in E. contradiction.
Qed.

End TextOrder.

Section Substrings.

Import Registry.

Lemma startsWith_prefix (s q : jsstring) :
  startsWith s q = true <-> exists rest, s = q ++ rest.
Proof.
  revert s. induction q as [|c q IH]; intros s.
  - split; [intros _; now exists s | intros _; destruct s; reflexivity].
  - destruct s as [|d s]; cbn.
    + split; [discriminate | intros [rest H]; discriminate H].
    + rewrite andb_true_iff, IH. split.
      * intros [Hc [rest ->]]. apply unit_eqb_eq in Hc. subst d.
        now exists rest.
      * intros [rest H]. injection H as -> ->.
        split; [now apply unit_eqb_eq | now exists rest].
Qed.

Lemma includes_infix (s q : jsstring) :
  includes s q = true <-> exists before after, s = before ++ q ++ after.
Proof.
  induction s as [|d s IH]; cbn [includes]; rewrite orb_true_iff.
  - rewrite startsWith_prefix. split.
    + intros [[rest H]|H]; [|discriminate]. now exists [], rest.
    + intros (before & after & H). left.
      destruct before; [now exists after | discriminate H].
  - rewrite startsWith_prefix, IH. split.
    + intros [[rest H]|(before & after & H)].
      * now exists [], rest.
      * exists (d :: before), after. cbn. now rewrite H.
    + intros (before & after & H). destruct before as [|d' before]; cbn in H.
      * left. now exists after.
      * right. injection H as _ H. now exists before, after.
Qed.

Lemma includes_empty (s : jsstring) : includes s [] = true.
Proof. destruct s; reflexivity. Qed.

(** Without a capital sigma lower-casing goes unit by unit. *)
Lemma lower_plain (after_cased : bool) (s : jsstring) :
  ~ In CapitalSigma s -> lower_from after_cased s = map lower_unit s.
Proof.
  revert after_cased. induction s as [|u s IH]; intros b Hn; [reflexivity|].
  cbn [lower_from map]. rewrite IH by (intros H; apply Hn; now right).
  destruct u; try reflexivity. exfalso. apply Hn. now left.
Qed.

Lemma toLowerCase_plain (s : jsstring) :
  ~ In CapitalSigma s -> toLowerCase s = map lower_unit s.
Proof. apply lower_plain. Qed.

Lemma latin1_plain (s : jsstring) : latin1 s -> ~ In CapitalSigma s.
Proof. intros Hl Hin. destruct (Hl _ Hin) as [a Ha]. discriminate Ha. Qed.

Lemma same_ignoring_case_lower (a b : jsstring) :
  same_ignoring_case a b <-> map lower_unit a = map lower_unit b.
Proof.
  revert b. induction a as [|c a IH]; intros [|d b]; cbn;
    try (split; [tauto | discriminate]); [tauto|].
  rewrite IH. split.
  - intros [-> ->]. reflexivity.
  - intros H. injection H as Hc H. now split.
Qed.

(** On text without a capital sigma the code's test, lower-casing both
    sides and looking for an exact occurrence, decides occurrence up to
    letter case. *)
Lemma includes_lower (s q : jsstring) :
  ~ In CapitalSigma s -> ~ In CapitalSigma q ->
  (includes (toLowerCase s) (toLowerCase q) = true
   <-> contains_ignoring_case s q).
Proof.
  intros Hs Hq. rewrite !toLowerCase_plain by assumption.
  rewrite includes_infix. unfold contains_ignoring_case. split.
  - intros (x & z & H).
    apply map_eq_app in H. destruct H as (before & rest & -> & _ & Hr).
    apply map_eq_app in Hr. destruct Hr as (part & after & -> & Hp & _).
    exists before, part, after. split; [reflexivity|].
    now apply same_ignoring_case_lower.
  - intros (before & part & after & -> & Hp).
    apply same_ignoring_case_lower in Hp.
    exists (map lower_unit before), (map lower_unit after).
    now rewrite !map_app, Hp.
Qed.

Lemma matches_selected (q : jsstring) (c : ComponentMeta) :
  latin1 q -> latin1_entry c ->
  (matches (toLowerCase q) c = true <-> selected q c).
Proof.
  intros Hq (Hn & Hd & Ht). apply latin1_plain in Hq, Hn, Hd.
  assert (Ht' : forall tag, In tag (tags c) -> ~ In CapitalSigma tag)
    by (intros tag Hin; apply latin1_plain, Ht, Hin).
  unfold matches, selected.
  rewrite !orb_true_iff, !includes_lower, existsb_exists by assumption. split.
  - intros [[H|H]|(tag & Hin & H)]; [tauto | tauto |].
    right; right. exists tag. split; [exact Hin|].
    apply includes_lower; auto.
  - intros [H|[H|(tag & Hin & H)]]; [tauto | tauto |].
    right. exists tag. split; [exact Hin|]. apply includes_lower; auto.
Qed.

End Substrings.

Section Search.

Import Registry.

Variable registry : list ComponentMeta.

(** C10: the empty query selects every entry. *)
Theorem search_empty_query : search registry (js "") = registry.
Proof.
  unfold search. cbn [js list_ascii_of_string map toLowerCase lower_from].
  induction registry as [|c cs IH]; [reflexivity|]. cbn [filter].
  unfold matches at 1. rewrite includes_empty. cbn. now rewrite IH.
Qed.

End Search.

Section SearchFinalSigma.

Import Registry.


End SearchFinalSigma.

(** * Further properties of the code *)

(** ** Registry queries *)

Section RegistryLookups.

Import Registry RegistryQueries.

Variable registry : list ComponentMeta.

(** X1: [getById] answers with the first entry that carries the id, and
    with [undefined] exactly when no entry carries it. *)
Theorem getById_first (i : jsstring) :
  match getById registry i with
  | Some c =>
      exists before after,
        registry = before ++ c :: after
        /\ id c = i
        /\ forall b, In b before -> id b <> i
  | None => forall c, In c registry -> id c <> i
  end.
Proof.
  unfold getById. induction registry as [|m ms IH]; cbn; [tauto|].
  destruct (jsstring_eqb (id m) i) eqn:E.
  - apply jsstring_eqb_eq in E. exists [], ms. cbn. tauto.
  - assert (Hne : id m <> i)
      by (intros H; apply jsstring_eqb_eq in H; congruence).
    destruct (find _ ms) as [c|].
    + destruct IH as (before & after & -> & Hi & Hb).
      exists (m :: before), after. cbn. repeat split; auto.
      intros b [<-|Hin]; auto.
    + intros c [<-|Hin]; auto.
Qed.

(** X2: [getAllCategories] lists the seven categories in their fixed
    order, each with the number of entries of that category, and the
    counts add up to the size of the registry: every entry is counted
    once. *)
Theorem getAllCategories_counts :
  map info_id (getAllCategories registry)
  = [buttons; cards; sections; forms; text; navigation; overlays]
  /\ map count (getAllCategories registry)
     = map (fun c => length (getByCategory registry c))
           [buttons; cards; sections; forms; text; navigation; overlays]
  /\ total_count (getAllCategories registry) = length registry.
Proof.
  split; [reflexivity|]. split; [reflexivity|].
  unfold getAllCategories, total_count, getByCategory. cbn.
  induction registry as [|m ms IH]; [reflexivity|].
  cbn [filter length]. destruct (category m); cbn; lia.
Qed.

(** X3: [getByTags] keeps exactly the entries that share at least one
    tag with the list asked for, so an empty list selects nothing. *)
Theorem getByTags_shares_tag (ts : list jsstring) :
  (forall c, In c (getByTags registry ts)
             <-> In c registry /\ exists t, In t ts /\ In t (tags c))
  /\ getByTags registry [] = [].
Proof.
  unfold getByTags. split.
  - intros c. rewrite filter_In, existsb_exists. split.
    + intros [Hc (t & Ht & Hx)]. split; [exact Hc|]. exists t. split; [exact Ht|].
      apply existsb_exists in Hx. destruct Hx as (u & Hu & He).
      apply jsstring_eqb_eq in He. now subst u.
    + intros [Hc (t & Ht & Hx)]. split; [exact Hc|]. exists t. split; [exact Ht|].
      apply existsb_exists. exists t. split; [exact Hx | apply jsstring_eqb_refl].
  - cbn. induction registry as [|m ms IH]; [reflexivity | exact IH].
Qed.

(** X6: the queries are filters of one list, so they compose in either
    order: searching within a category is taking the category of the
    search result, and searching a search result again changes nothing. *)
Theorem search_within_category (query : jsstring) (c : ComponentCategory) :
  search (getByCategory registry c) query
  = getByCategory (search registry query) c
  /\ search (search registry query) query = search registry query.
Proof.
  unfold search, getByCategory. split.
  - induction registry as [|m ms IH]; [reflexivity|]. cbn.
    destruct (category_eqb (category m) c) eqn:Ec,
             (matches (toLowerCase query) m) eqn:Em; cbn;
      rewrite ?Ec, ?Em, IH; reflexivity.
  - induction registry as [|m ms IH]; [reflexivity|]. cbn.
    destruct (matches (toLowerCase query) m) eqn:Em; cbn;
      rewrite ?Em, IH; reflexivity.
Qed.

(** X5: when the lengthened query contains no capital sigma, so that
    its lower-casing goes unit by unit, lengthening the query on either
    side can only narrow the result. *)
Theorem search_narrows (before query after : jsstring) (c : ComponentMeta) :
  ~ In CapitalSigma (before ++ query ++ after) ->
  In c (search registry (before ++ query ++ after)) ->
  In c (search registry query).
Proof.
  intros Hplain.
  assert (Hq : ~ In CapitalSigma query)
    by (intros H; apply Hplain; rewrite !in_app_iff; tauto).
  assert (Hinc : forall s, includes s (toLowerCase (before ++ query ++ after))
                           = true ->
                           includes s (toLowerCase query) = true).
  { intros s. rewrite !toLowerCase_plain by assumption.
    rewrite !map_app, !includes_infix. intros (x & z & ->).
    exists (x ++ map lower_unit before), (map lower_unit after ++ z).
    now rewrite <- !app_assoc. }
  unfold search. rewrite !filter_In. intros [Hc Hm]. split; [exact Hc|].
  unfold matches in *. rewrite !orb_true_iff in *.
  destruct Hm as [[H|H]|H]; auto.
  right. apply existsb_exists in H. destruct H as (tag & Ht & H).
  apply existsb_exists. exists tag. auto.
Qed.

(** X19: on Latin-1 text [search] is exact: for a Latin-1 query and a
    registry of Latin-1 entries it returns, in registry order, exactly
    the entries whose name, description or some tag contains the query
    up to letter case, and the empty list when there is none. *)
Theorem search_exact_on_latin1 (query : jsstring) :
  latin1 query ->
  (forall c, In c registry -> latin1_entry c) ->
  (forall c, In c (search registry query)
             <-> In c registry /\ selected query c)
  /\ (forall keep : ComponentMeta -> bool,
        (forall c, keep c = true <-> selected query c) ->
        search registry query = filter keep registry)
  /\ ((forall c, In c registry -> ~ selected query c) ->
        search registry query = []).
Proof.
  intros Hq Hreg. unfold search. split; [|split].
  - intros c. rewrite filter_In. split.
    + intros [Hc Hm]. split; [exact Hc|]. apply matches_selected; auto.
    + intros [Hc Hs]. split; [exact Hc|]. apply matches_selected; auto.
  - intros keep Hk. apply filter_ext_in. intros c Hc.
    apply eq_true_iff_eq. rewrite matches_selected, Hk by auto. reflexivity.
  - intros Hnone. induction registry as [|c cs IH]; [reflexivity|]. cbn.
    destruct (matches (toLowerCase query) c) eqn:E.
    + apply matches_selected in E; [|exact Hq | apply Hreg; now left].
      exfalso. apply (Hnone c); [now left | exact E].
    + apply IH.
      * intros c' Hin. apply Hreg. now right.
      * intros c' Hin. apply Hnone. now right.
Qed.

End RegistryLookups.

Section RegistryLookupsExample.

Import Registry.

Lemma latin1_js (s : string) : latin1 (js s).
Proof.
  unfold latin1, js. intros u Hin. apply in_map_iff in Hin.
  destruct Hin as (a & <- & _). now exists a.
Qed.

Lemma search_narrows_witness :
  let magnetic :=
    mkMeta (js "magnetic-button") (js "Magnetic Button") buttons
           (js "Button that follows cursor with magnetic effect based on distance")
           [js "hover"; js "mouse"; js "interactive"] intermediate [hover]
           [timeline] (js "~/components/ui/buttons/MagneticButton.vue") in
  In magnetic (search [magnetic] (js "c BUT"))
  /\ In magnetic (search [magnetic] (js "BU")).
Proof.
  intros magnetic.
  assert (H : In magnetic (search [magnetic] (js "c " ++ js "BU" ++ js "T")))
    by (vm_compute; tauto).
  split; [exact H|].
  apply (@search_narrows [magnetic] (js "c ") (js "BU") (js "T") magnetic);
    [|exact H].
  apply latin1_plain. exact (latin1_js "c BUT").
Defined.

(** The entry the source keeps as its commented-out example. *)
Lemma search_exact_on_latin1_witness :
  let magnetic :=
    mkMeta (js "magnetic-button") (js "Magnetic Button") buttons
           (js "Button that follows cursor with magnetic effect based on distance")
           [js "hover"; js "mouse"; js "interactive"] intermediate [hover]
           [timeline] (js "~/components/ui/buttons/MagneticButton.vue") in
  (In magnetic (search [magnetic] (js "BUTTON"))
   <-> In magnetic [magnetic] /\ selected (js "BUTTON") magnetic)
  /\ search [magnetic] (js "MOUSE") = [magnetic]
  /\ search [magnetic] (js "slider") = [].
Proof.
  intros magnetic.
  assert (Hreg : forall c, In c [magnetic] -> latin1_entry c).
  { intros c [<-|[]]. split; [apply latin1_js|]. split; [apply latin1_js|].
    intros tag [<-|[<-|[<-|[]]]]; apply latin1_js. }
  destruct (@search_exact_on_latin1 [magnetic] (js "BUTTON")
              (latin1_js "BUTTON") Hreg) as (Hin & _ & _).
  destruct (@search_exact_on_latin1 [magnetic] (js "slider")
              (latin1_js "slider") Hreg) as (_ & _ & Hnone).
  split; [apply Hin|]. split; [reflexivity|].
  apply Hnone. intros c [<-|[]] Hsel.
  apply matches_selected in Hsel;
    [|apply latin1_js | apply Hreg; now left].
  vm_compute in Hsel. discriminate Hsel.
Defined.

End RegistryLookupsExample.

Section AllTags.

Import Registry RegistryQueries.

Lemma Set_add_In (t x : jsstring) (s : list jsstring) :
  In x (Set_add t s) <-> x = t \/ In x s.
Proof.
  unfold Set_add. destruct (existsb _ s) eqn:E.
  - apply existsb_exists in E. destruct E as (u & Hu & He).
    apply jsstring_eqb_eq in He. subst u. split; [tauto|].
    intros [->|H]; assumption.
  - rewrite in_app_iff. cbn. intuition.
Qed.

Lemma Set_add_NoDup (t : jsstring) (s : list jsstring) :
  NoDup s -> NoDup (Set_add t s).
Proof.
  intros Hs. unfold Set_add. destruct (existsb _ s) eqn:E; [exact Hs|].
  apply NoDup_app; [exact Hs | repeat constructor; easy |].
  intros x Hx [<-|[]].
  assert (Ht : existsb (jsstring_eqb t) s = true)
    by (apply existsb_exists; exists t; split;
        [exact Hx | apply jsstring_eqb_refl]).
  congruence.
Qed.

Lemma add_all_In (ts s : list jsstring) (x : jsstring) :
  In x (fold_left (fun s' tag => Set_add tag s') ts s) <-> In x ts \/ In x s.
Proof.
  revert s. induction ts as [|t ts IH]; intros s; cbn; [tauto|].
  rewrite IH, Set_add_In. intuition.
Qed.

Lemma add_all_NoDup (ts s : list jsstring) :
  NoDup s -> NoDup (fold_left (fun s' tag => Set_add tag s') ts s).
Proof.
  revert s. induction ts as [|t ts IH]; intros s Hs; cbn; [exact Hs|].
  apply IH, Set_add_NoDup, Hs.
Qed.

Lemma collect_from_In (registry : list ComponentMeta) (s : list jsstring)
    (x : jsstring) :
  In x (fold_left (fun s0 c => fold_left (fun s' tag => Set_add tag s') (tags c) s0)
                  registry s)
  <-> (exists c, In c registry /\ In x (tags c)) \/ In x s.
Proof.
  revert s. induction registry as [|m ms IH]; intros s; cbn.
  - split; [tauto | intros [(c & [] & _)|H]; exact H].
  - rewrite IH, add_all_In. split.
    + intros [(c & Hc & Hx)|[Hx|Hx]]; [left; exists c | left; exists m | right]; auto.
    + intros [(c & [<-|Hc] & Hx)|Hx]; [tauto | left; exists c; auto | tauto].
Qed.

Lemma collect_from_NoDup (registry : list ComponentMeta) (s : list jsstring) :
  NoDup s ->
  NoDup (fold_left (fun s0 c => fold_left (fun s' tag => Set_add tag s') (tags c) s0)
                   registry s).
Proof.
  revert s. induction registry as [|m ms IH]; intros s Hs; cbn; [exact Hs|].
  apply IH, add_all_NoDup, Hs.
Qed.

Lemma insert_sorted_In (t x : jsstring) (l : list jsstring) :
  In x (insert_sorted t l) <-> x = t \/ In x l.
Proof.
  induction l as [|u l IH]; cbn; [intuition|].
  destruct (jsstring_leb t u); cbn; [intuition | rewrite IH; intuition].
Qed.

Lemma insert_sorted_NoDup (t : jsstring) (l : list jsstring) :
  ~ In t l -> NoDup l -> NoDup (insert_sorted t l).
Proof.
  induction l as [|u l IH]; cbn; intros Hn Hl.
  - repeat constructor. easy.
  - destruct (jsstring_leb t u).
    + constructor; [cbn; exact Hn | exact Hl].
    + inversion Hl as [|? ? Hu Hl']; subst. constructor.
      * rewrite insert_sorted_In. intuition.
      * apply IH; intuition.
Qed.

Lemma insert_sorted_Sorted (t : jsstring) (l : list jsstring) :
  ~ In t l ->
  Sorted (fun a b => jsstring_ltb a b = true) l ->
  Sorted (fun a b => jsstring_ltb a b = true) (insert_sorted t l).
Proof.
  induction l as [|u l IH]; cbn; intros Hn Hs.
  - repeat constructor.
  - destruct (jsstring_leb t u) eqn:E.
    + constructor; [exact Hs|]. constructor. apply leb_ltb; intuition.
    + inversion Hs as [|? ? Hs' Hhd]; subst.
      constructor; [apply IH; intuition|].
      assert (Hut : jsstring_ltb u t = true).
      { apply leb_ltb; [|intuition].
        destruct (jsstring_leb_total t u) as [H|H]; [congruence | exact H]. }
      destruct l as [|v l]; cbn; [now constructor|].
      destruct (jsstring_leb t v); constructor; [exact Hut|].
      now inversion Hhd.
Qed.

Lemma sort_spec (l : list jsstring) :
  NoDup l ->
  (forall x, In x (sort l) <-> In x l)
  /\ NoDup (sort l)
  /\ Sorted (fun a b => jsstring_ltb a b = true) (sort l).
Proof.
  unfold sort. induction 1 as [|t l Hn Hl (Hin & Hnd & Hs)]; cbn.
  - repeat split; auto; constructor.
  - assert (Hn' : ~ In t (fold_right insert_sorted [] l)) by now rewrite Hin.
    split; [|split].
    + intros x. rewrite insert_sorted_In, Hin. intuition.
    + now apply insert_sorted_NoDup.
    + now apply insert_sorted_Sorted.
Qed.

(** X4: [getAllTags] returns every tag some entry carries and nothing
    else, each tag once, in strictly ascending code-unit order. *)
Theorem getAllTags_sorted_unique (registry : list ComponentMeta) :
  (forall t, In t (getAllTags registry)
             <-> exists c, In c registry /\ In t (tags c))
  /\ NoDup (getAllTags registry)
  /\ Sorted (fun a b => jsstring_ltb a b = true) (getAllTags registry).
Proof.
  unfold getAllTags, collect_tags.
  destruct (sort_spec (collect_from_NoDup registry (NoDup_nil jsstring)))
    as (Hin & Hnd & Hs).
  split; [|split; assumption].
  intros t. rewrite Hin, collect_from_In. cbn. tauto.
Qed.

End AllTags.

(** ** Scoped animation context over its whole life *)

Section ContextLife.

Import Gsap UseGsapContext ContextRuns.

Variable o : Options.

Lemma adds_while_open (anims : list callback) (s : State) (recorded : list call) :
  ctx s = Some recorded ->
  let s' := run o (map Add anims) s in
  ctx s' = Some (recorded ++ concat (map creates anims))
  /\ isReady s' = isReady s
  /\ trace s' = trace s ++ map (fun a => ContextAdd (creates a)) anims.
Proof.
  unfold run. revert s recorded.
  induction anims as [|a anims IH]; intros s recorded Hc; cbn.
  - now rewrite !app_nil_r.
  - destruct (IH (fst (add a s)) (recorded ++ creates a)) as (H1 & H2 & H3).
    + unfold add. now rewrite Hc.
    + rewrite H1, H2, H3. unfold add. rewrite Hc. cbn.
      now rewrite <- !app_assoc.
Qed.

(** X7: when [setup] returns, everything registered between mount and
    unmount, by [setup] and by every later [add], is live until the
    unmount and is handed to [ctx.revert()] by it, in registration
    order; afterwards nothing is live and [isReady] is false. *)
Theorem mounted_context_is_fully_reverted (anims : list callback) :
  outcome (setup o) = Normal tt ->
  let opened := run o (Mount :: map Add anims) initial in
  let closed := onBeforeUnmount o opened in
  let everything := made (setup o) ++ concat (map creates anims) in
  live opened = everything
  /\ isReady opened = true
  /\ live closed = []
  /\ isReady closed = false
  /\ exists after,
       trace closed = trace opened ++ ContextRevert everything :: after
       /\ (after = [] \/ exists made_by_callback, after = [OnRevert made_by_callback]).
Proof.
  intros Hok opened closed everything.
  assert (Hm : onMounted o initial
               = mkState (Some (made (setup o))) true
                         [ContextCreated (made (setup o))]).
  { unfold onMounted, init. now rewrite Hok. }
  destruct (@adds_while_open anims (onMounted o initial) (made (setup o)))
    as (Hc & Hr & Ht); [now rewrite Hm|].
  change (run o (map Add anims) (onMounted o initial)) with opened in Hc, Hr, Ht.
  fold everything in Hc.
  assert (Hl : live opened = everything) by (unfold live; now rewrite Hc).
  split; [exact Hl|]. split; [rewrite Hr, Hm; reflexivity|].
  subst closed. unfold onBeforeUnmount, revert, live. rewrite Hc.
  destruct (onRevert o) as [cb|]; cbn.
  - repeat split. exists [OnRevert (creates cb)].
    rewrite <- app_assoc. split; [reflexivity|]. right. now exists (creates cb).
  - repeat split. exists []. split; [reflexivity | now left].
Qed.

Lemma filter_snoc {A : Type} (f : A -> bool) (l : list A) (a : A) :
  length (filter f (l ++ [a])) = length (filter f l) + (if f a then 1 else 0).
Proof. rewrite filter_app, length_app. cbn. now destruct (f a). Qed.

Lemma apply_keeps_invariant (s : State) (a : api) :
  context_invariant o s -> context_invariant o (apply o s a).
Proof.
  unfold context_invariant, is_open, created, reverted, onRevert_runs.
  intros (Hr & Hle & Hon). destruct a as [|animation|]; cbn.
  - unfold onMounted, init. destruct (outcome (setup o)); cbn;
      rewrite !filter_snoc; cbn; rewrite !Nat.add_0_r; [|tauto].
    split; [reflexivity|]. split; [|exact Hon].
    destruct (ctx s); lia.
  - unfold add. destruct (ctx s) eqn:E; cbn; rewrite !filter_snoc; cbn;
      rewrite !Nat.add_0_r; (split; [tauto|]; split; [lia | tauto]).
  - unfold revert. destruct (ctx s) eqn:E; cbn; [|rewrite E; tauto].
    destruct (onRevert o); cbn; rewrite !filter_snoc; cbn;
      rewrite ?filter_snoc; cbn; rewrite ?Nat.add_0_r.
    + split; [reflexivity|]. split; lia.
    + split; [reflexivity|]. split; [lia | exact Hon].
Qed.

(** X8: whatever a component does with the handle, in whatever order,
    [isReady] tells whether the context is open, no context is reverted
    that was not created, and [onRevert] has run once for each
    [ctx.revert()] that happened, never for a [revert()] on a closed
    context. *)
Theorem handle_keeps_invariant (calls : list api) :
  let s := run o calls initial in
  isReady s = is_open s
  /\ reverted s + (if is_open s then 1 else 0) <= created s
  /\ onRevert_runs s
     = match onRevert o with Some _ => reverted s | None => 0 end.
Proof.
  cbn zeta. change (context_invariant o (run o calls initial)).
  unfold run. induction calls as [|a calls IH] using rev_ind.
  - unfold context_invariant. cbn. destruct (onRevert o); auto.
  - rewrite fold_left_app. cbn. apply apply_keeps_invariant, IH.
Qed.

Lemma orphaned_snoc (s : State) (e : event) :
  flat_map (fun e0 => match e0 with ContextFailed made => made | _ => [] end)
           (trace s ++ [e])
  = orphaned s ++ match e with ContextFailed made => made | _ => [] end.
Proof. unfold orphaned. rewrite flat_map_app. cbn. now rewrite app_nil_r. Qed.

Lemma repeat_snoc {A : Type} (x : list A) (n : nat) :
  concat (repeat x (n + 1)) = concat (repeat x n) ++ x.
Proof.
  induction n as [|n IH]; cbn; [now rewrite app_nil_r|].
  now rewrite IH, app_assoc.
Qed.

Lemma mounts_snoc (calls : list api) (a : api) :
  mounts (calls ++ [a])
  = mounts calls + match a with Mount => 1 | _ => 0 end.
Proof.
  unfold mounts. rewrite filter_snoc. now destruct a.
Qed.

(** X9: when [setup] throws, no sequence of mounts, adds and reverts
    ever opens the context: [isReady] stays false, every [add] only
    warns, and [ctx.revert()] and [onRevert] never run.  The engine calls
    that [setup] made before it threw are therefore never reverted: they
    pile up, once per mount. *)
Theorem failed_setup_never_opens (e : error) (calls : list api) :
  outcome (setup o) = Throw e ->
  let s := run o calls initial in
  ctx s = None /\ isReady s = false
  /\ created s = 0 /\ reverted s = 0 /\ onRevert_runs s = 0
  /\ orphaned s = concat (repeat (made (setup o)) (mounts calls)).
Proof.
  intros He. cbn zeta. unfold run.
  induction calls as [|a calls IH] using rev_ind; [now cbn|].
  rewrite fold_left_app, mounts_snoc. cbn [fold_left].
  destruct IH as (Hc & Hr & Hcr & Hre & Hon & Hor).
  unfold created, reverted, onRevert_runs in *.
  destruct a as [|animation|]; cbn [apply].
  - unfold onMounted, init. rewrite He. cbn [fst ctx isReady trace].
    unfold orphaned at 1. cbn [trace]. rewrite orphaned_snoc, Hor, repeat_snoc.
    rewrite !filter_snoc. cbn. rewrite !Nat.add_0_r. tauto.
  - unfold add. rewrite Hc. cbn [fst ctx isReady trace].
    unfold orphaned at 1. cbn [trace]. rewrite orphaned_snoc, Hor.
    rewrite !filter_snoc. cbn. rewrite !Nat.add_0_r, app_nil_r. tauto.
  - unfold revert. rewrite Hc. cbn. rewrite Nat.add_0_r. tauto.
Qed.

End ContextLife.

(** ** Magnetic hover over a run of events *)

Section MagneticLife.

Import Gsap UseMagneticEffect MagneticRuns.

Variable o : Options.
Variable element : HTMLElement.

Lemma cancel_own_frame (h : nat) (c : call) :
  cancelAnimationFrame h [(h, c)] = [].
Proof. unfold cancelAnimationFrame. cbn. now rewrite Nat.eqb_refl. Qed.

(** What is left scheduled once [handleMouseMove] or [disable] has
    cancelled the frame it knows of. *)
Lemma cancelled_is_empty (s : State) :
  single_frame s ->
  (if truthy_handle (animationFrame s)
   then match animationFrame s with
        | Some h => cancelAnimationFrame h (pending s)
        | None => pending s
        end
   else pending s) = [].
Proof.
  intros [_ [Hp|(h & c & Hp & Ha & Hh)]]; rewrite Hp.
  - destruct (animationFrame s) as [[|h]|]; reflexivity.
  - rewrite Ha. destruct h as [|h]; [lia|]. cbn [truthy_handle].
    apply cancel_own_frame.
Qed.

Lemma react_keeps_single_frame (s : State) (i : input) :
  single_frame s -> single_frame (react o (Some element) s i).
Proof.
  intros Hs. pose proof (cancelled_is_empty Hs) as Hc.
  destruct Hs as [Hn Hp]. destruct i as [| |e| |]; cbn [react].
  - split; assumption.
  - unfold disable. cbn zeta. rewrite Hc. split; cbn; [exact Hn | now left].
  - destruct (listening _ s); [|now split].
    unfold handleMouseMove.
    destruct (radius o <? _)%float; [split; assumption|].
    cbn zeta. rewrite Hc. split; cbn; [lia|].
    right. eexists _, _. split; [reflexivity|]. split; [reflexivity | exact Hn].
  - destruct (listening _ s); now split.
  - split; cbn; [exact Hn | now left].
Qed.

(** X10: however the events of a mounted effect interleave, at most one
    frame callback is ever scheduled, namely the one [animationFrame]
    names; so [disable] leaves none behind, and its [gsap.set] to [(0, 0)]
    is the last engine call even after the next frame. *)
Theorem at_most_one_frame_pending (inputs : list input) :
  let s := run o (Some element) inputs initial in
  single_frame s
  /\ length (pending s) <= 1
  /\ pending (disable (Some element) s) = []
  /\ engine (animationFrames (disable (Some element) s))
     = engine s ++ [set element 0 0].
Proof.
  cbn zeta.
  assert (Hs : single_frame (run o (Some element) inputs initial)).
  { unfold run. induction inputs as [|i inputs IH] using rev_ind.
    - split; cbn; [lia | now left].
    - rewrite fold_left_app. cbn. apply react_keeps_single_frame, IH. }
  pose proof (cancelled_is_empty Hs) as Hc.
  split; [exact Hs|]. split.
  - destruct Hs as [_ [->|(h & c & -> & _)]]; cbn; lia.
  - unfold disable, animationFrames. cbn zeta. rewrite Hc. cbn.
    now rewrite app_nil_r.
Qed.

(** X11: [handleMouseLeave] does not cancel the frame that the preceding
    [handleMouseMove] scheduled.  After a move within the radius and a
    leave, the effect is inactive and the reset tween has been issued, but
    the next frame still issues the tween towards the offset, after the
    reset. *)
Theorem leave_does_not_cancel_frame (e : MouseEvent) (s : State) :
  near o element e = true ->
  let off := calculateOffset o element (clientX e) (clientY e) in
  let left_ :=
    handleMouseLeave o (Some element) (handleMouseMove o (Some element) e s) in
  isActive left_ = false
  /\ exists between,
       engine (animationFrames left_)
       = engine s ++ to element 0 0 (speed o) (ease o)
                  :: between
                  ++ [to element (offset_x off) (offset_y off) (speed o) (ease o)].
Proof.
  intros Hn. cbn zeta. unfold near in Hn.
  apply negb_true_iff in Hn.
  unfold handleMouseMove. rewrite Hn. cbn.
  split; [reflexivity|]. rewrite map_app. cbn.
  eexists. rewrite <- app_assoc. reflexivity.
Qed.

Lemma near_move (e : MouseEvent) (s : State) :
  near o element e = true ->
  isActive (handleMouseMove o (Some element) e s) = true
  /\ notified (handleMouseMove o (Some element) e s)
     = (if isActive s then notified s else notify (onEnter o) (notified s))
  /\ engine (handleMouseMove o (Some element) e s) = engine s.
Proof.
  unfold near. intros Hn. apply negb_true_iff in Hn.
  unfold handleMouseMove. rewrite Hn. now cbn.
Qed.

(** X12: [onEnter] runs once per activation: however many moves within
    the radius follow one another on an inactive effect, the callback has
    run exactly once after them, and the effect is active. *)
Theorem onEnter_once_per_activation
    (e : MouseEvent) (es : list MouseEvent) (s : State) :
  isActive s = false ->
  Forall (fun e' => near o element e' = true) (e :: es) ->
  let s' :=
    fold_left (fun s0 e' => handleMouseMove o (Some element) e' s0) (e :: es) s in
  isActive s' = true
  /\ notified s' = notify (onEnter o) (notified s)
  /\ engine s' = engine s.
Proof.
  intros Hi Hall. cbn [fold_left]. inversion Hall as [|? ? He Hes]; subst.
  destruct (@near_move e s He) as (Ha & Hn & Hg). rewrite Hi in Hn.
  rewrite <- Hn, <- Hg. clear Hn Hg Hi Hall He.
  revert Ha. generalize (handleMouseMove o (Some element) e s) as t.
  induction Hes as [|e' es He' _ IH]; intros t Ha; cbn [fold_left].
  - now rewrite Ha.
  - destruct (@near_move e' t He') as (Ha' & Hn' & Hg'). rewrite Ha in Hn'.
    destruct (IH _ Ha') as (H1 & H2 & H3). now rewrite H1, H2, H3, Hn', Hg'.
Qed.

(** X13: the far branch has no such guard: every move beyond the radius
    issues the reset tween and runs [onLeave] again, whether or not the
    effect was active. *)
Theorem far_moves_each_reset (es : list MouseEvent) (s : State) :
  Forall (fun e => near o element e = false) es ->
  let s' :=
    fold_left (fun s0 e => handleMouseMove o (Some element) e s0) es s in
  engine s'
  = engine s ++ repeat (to element 0 0 (speed o) (ease o)) (length es)
  /\ (forall label, onLeave o = Some label ->
        notified s' = notified s ++ repeat label (length es))
  /\ (es <> [] -> isActive s' = false).
Proof.
  intros Hall. cbn zeta. revert s.
  induction Hall as [|e es He _ IH]; intros s; cbn [fold_left length repeat].
  - rewrite app_nil_r. repeat split; [intros; now rewrite app_nil_r | easy].
  - assert (Hm : handleMouseMove o (Some element) e s
                 = handleMouseLeave o (Some element) s).
    { unfold near in He. apply negb_false_iff in He.
      unfold handleMouseMove. now rewrite He. }
    rewrite Hm. destruct (IH (handleMouseLeave o (Some element) s))
      as (Hg & Hn & Ha).
    split; [|split].
    + rewrite Hg. cbn. now rewrite <- app_assoc.
    + intros label Hl. rewrite (Hn label Hl). cbn. rewrite Hl. cbn.
      now rewrite <- app_assoc.
    + intros _. destruct es as [|e' es']; [reflexivity | apply Ha; easy].
Qed.

End MagneticLife.

Section MagneticListeners.

Import Gsap UseMagneticEffect MagneticRuns.

Variable o : Options.
Variable element : HTMLElement.

Lemma listener_eqb_refl (l : string * listener) : listener_eqb l l = true.
Proof.
  unfold listener_eqb. rewrite String.eqb_refl. now destruct (snd l).
Qed.

Lemma added_is_present (l : string * listener) (ls : list (string * listener)) :
  existsb (listener_eqb l) (addEventListener l ls) = true.
Proof.
  unfold addEventListener. destruct (existsb _ ls) eqn:E; [exact E|].
  rewrite existsb_app. cbn. now rewrite listener_eqb_refl, orb_true_r.
Qed.

Lemma present_stays (l l' : string * listener) (ls : list (string * listener)) :
  existsb (listener_eqb l) ls = true ->
  existsb (listener_eqb l) (addEventListener l' ls) = true.
Proof.
  intros H. unfold addEventListener. destruct (existsb (listener_eqb l') ls);
    [exact H|]. rewrite existsb_app, H. reflexivity.
Qed.

Lemma add_present (l : string * listener) (ls : list (string * listener)) :
  existsb (listener_eqb l) ls = true -> addEventListener l ls = ls.
Proof. intros H. unfold addEventListener. now rewrite H. Qed.

Lemma removed_is_absent (l : string * listener) (keep : string * listener -> bool)
    (ls : list (string * listener)) :
  (forall x, keep x = true -> listener_eqb l x = false) ->
  existsb (listener_eqb l) (filter keep ls) = false.
Proof.
  intros Hk. induction ls as [|x ls IH]; cbn; [reflexivity|].
  destruct (keep x) eqn:E; cbn; [|exact IH]. now rewrite (Hk x E), IH.
Qed.

(** X14: [enable] attaches the two handlers and is idempotent, since
    the DOM ignores a listener that is already attached; [disable]
    detaches both, so that later pointer events no longer reach the
    effect. *)
Theorem enable_disable_listeners (s : State) (e : MouseEvent) :
  let on := enable (Some element) s in
  let off := disable (Some element) s in
  listening ("mousemove", handleMouseMove_l) on = true
  /\ listening ("mouseleave", handleMouseLeave_l) on = true
  /\ enable (Some element) on = on
  /\ listening ("mousemove", handleMouseMove_l) off = false
  /\ listening ("mouseleave", handleMouseLeave_l) off = false
  /\ react o (Some element) off (Move e) = off
  /\ react o (Some element) off Leave = off.
Proof.
  cbn zeta.
  assert (Hm : listening ("mousemove", handleMouseMove_l)
                 (enable (Some element) s) = true)
    by (unfold listening, enable; cbn [listeners];
        apply present_stays, added_is_present).
  assert (Hl : listening ("mouseleave", handleMouseLeave_l)
                 (enable (Some element) s) = true)
    by (unfold listening, enable; cbn [listeners]; apply added_is_present).
  assert (Hm' : listening ("mousemove", handleMouseMove_l)
                  (disable (Some element) s) = false).
  { unfold listening, disable. cbn [listeners]. apply removed_is_absent.
    intros x Hx. apply negb_true_iff, orb_false_iff in Hx. tauto. }
  assert (Hl' : listening ("mouseleave", handleMouseLeave_l)
                  (disable (Some element) s) = false).
  { unfold listening, disable. cbn [listeners]. apply removed_is_absent.
    intros x Hx. apply negb_true_iff, orb_false_iff in Hx. tauto. }
  split; [exact Hm|]. split; [exact Hl|]. split.
  - unfold listening in Hm, Hl. unfold enable at 1. cbn [listeners] in *.
    unfold enable at 1 2 3 4 5 6. cbn.
    unfold enable in Hm, Hl. cbn [listeners] in Hm, Hl.
    rewrite (add_present _ _ Hm), (add_present _ _ Hl). reflexivity.
  - split; [exact Hm'|]. split; [exact Hl'|].
    cbn [react]. now rewrite Hm', Hl'.
Qed.

End MagneticListeners.

(** ** The accessor at its edges *)

Section AccessorEdges.

Import MotionConfig UseMotionConfig Tiers.

(** X15: outside the duration tiers [getAdjustedDuration] does not
    throw either, but its answer depends on the flag: under reduced
    motion the missing duration is divided all the same and the result is
    [NaN]; otherwise the lookup's [undefined] (or inherited member) comes
    back as it is. *)
Theorem getAdjustedDuration_unknown_key
    (w : World) (i : Instance) (key : string) :
  ~ In key duration_tiers ->
  (read w (prefersReducedMotion i) = true ->
     getAdjustedDuration w i key = Normal (Own nan))
  /\ (read w (prefersReducedMotion i) = false ->
     getAdjustedDuration w i key = getDuration key
     /\ falls_through key (getAdjustedDuration w i key)).
Proof.
  intros Hn. rewrite <- duration_keys in Hn.
  unfold getAdjustedDuration, getDuration, falls_through.
  split; intros ->.
  - destruct (get_absent _ _ Hn) as [->| ->]; reflexivity.
  - split; [reflexivity|].
    destruct (get_absent _ _ Hn) as [->| ->]; [now left | now right].
Qed.

Lemma getAdjustedDuration_unknown_key_witness :
  getAdjustedDuration (snd (useMotionConfig true true empty)) (mkInstance 0)
                      "turbo" = Normal (Own nan)
  /\ getAdjustedDuration (snd (useMotionConfig true false empty)) (mkInstance 0)
                         "turbo" = Normal Undefined.
Proof.
  split.
  - apply (@getAdjustedDuration_unknown_key
             (snd (useMotionConfig true true empty)) (mkInstance 0) "turbo");
      [cbn; intuition discriminate | reflexivity].
  - apply (@getAdjustedDuration_unknown_key
             (snd (useMotionConfig true false empty)) (mkInstance 0) "turbo");
      [cbn; intuition discriminate | reflexivity].
Defined.

Lemma server_cells_false (steps : list step) :
  Forall (fun b => b = false) (refs (run false steps)).
Proof.
  unfold run. induction steps as [|s steps IH] using rev_ind; [constructor|].
  rewrite fold_left_app. cbn [fold_left].
  destruct s as [m|m]; cbn [exec].
  - cbn. apply Forall_app. split; [exact IH | now repeat constructor].
  - unfold dispatchChange.
    destruct (run_shape false steps) as [_ Hl]. unfold run in Hl.
    rewrite Hl. exact IH.
Qed.

(** X16: during server-side rendering ([import.meta.client] false) the
    flag of every instance is false whatever happens, so every instance
    reports [shouldAnimate] and returns the base duration unchanged. *)
Theorem server_never_reduces (steps : list step) (i : Instance) (key : string) :
  let w := run false steps in
  read w (prefersReducedMotion i) = false
  /\ shouldAnimate w i = true
  /\ getAdjustedDuration w i key = getDuration key.
Proof.
  cbn zeta.
  assert (H : read (run false steps) (prefersReducedMotion i) = false).
  { unfold read. pose proof (server_cells_false steps) as Hf.
    rewrite Forall_forall in Hf.
    destruct (nth_in_or_default (prefersReducedMotion i)
                                (refs (run false steps)) false) as [Hin | ->];
      [now apply Hf | reflexivity]. }
  unfold shouldAnimate, getAdjustedDuration. now rewrite H.
Qed.

End AccessorEdges.

(** ** Scroll reveal at its edges *)

Section ScrollRevealEdges.

Import Gsap UseScrollReveal.

Variable o : Options.

Lemma mounted_live (s : State) :
  UseGsapContext.live (context (deliver o s Mount))
  = UseGsapContext.creates (setup o).
Proof. reflexivity. Qed.

Lemma unmounted_live (s : State) :
  UseGsapContext.live (context (deliver o s Unmount)) = [].
Proof.
  cbn. unfold UseGsapContext.onBeforeUnmount, UseGsapContext.live.
  now rewrite revert_closes.
Qed.

(** X17: a caller who passes an [onEnter] of their own in [scrollTrigger]
    replaces the composable's handler, because the spread comes last:
    [isTriggered] then stays false whatever is mounted and whatever
    crossings occur. *)
Theorem custom_onEnter_never_sets_flag
    (v : ScrollTriggerVars) (label : string) (es : list event) :
  scrollTrigger o = Some v -> vars_onEnter v = Some label ->
  isTriggered (run o es initial) = false.
Proof.
  intros Hv Hl.
  assert (Hsetup : existsb sets_flag (UseGsapContext.creates (setup o)) = false).
  { unfold setup, onEnter_of. cbn. rewrite Hv, Hl.
    destruct (elements (targets o)) as [|[first|] rest]; reflexivity. }
  assert (Hinv : isTriggered (run o es initial) = false
                 /\ existsb sets_flag
                      (UseGsapContext.live (context (run o es initial))) = false).
  { unfold run. induction es as [|e es IH] using rev_ind; [now cbn|].
    rewrite fold_left_app. cbn [fold_left]. destruct IH as [Hf Hlive].
    destruct e.
    - rewrite mounted_live. split; [exact Hf | exact Hsetup].
    - rewrite unmounted_live. split; [exact Hf | reflexivity].
    - cbn [deliver]. rewrite Hlive. now split.
    - now split.
    - now split.
    - now split. }
  exact (proj1 Hinv).
Qed.

(** X18: once the component is unmounted the flag is frozen: until a new
    mount, no crossing changes [isTriggered] any more, an [onEnter]
    included. *)
Theorem unmounted_flag_is_frozen (s : State) (es : list event) :
  Forall (fun e => e <> Mount) es ->
  isTriggered (run o es (deliver o s Unmount)) = isTriggered s.
Proof.
  intros Hes.
  assert (Hinv : forall t,
             UseGsapContext.live (context t) = [] ->
             isTriggered (run o es t) = isTriggered t).
  { unfold run. induction Hes as [|e es He _ IH]; intros t Ht; [reflexivity|].
    cbn [fold_left]. destruct e; try easy.
    - rewrite IH by apply unmounted_live. reflexivity.
    - cbn [deliver]. rewrite Ht. cbn. now apply IH.
    - now apply IH.
    - now apply IH.
    - now apply IH. }
  rewrite Hinv by apply unmounted_live. reflexivity.
Qed.

End ScrollRevealEdges.

(** ** Concrete runs *)

Section ContextExamples.

Import Gsap UseGsapContext ContextRuns.

Lemma mounted_context_is_fully_reverted_witness :
  let o := mkOptions (Some (mkCallback [user "intro"] None))
                     (Some (mkCallback [] None)) in
  let anims := [ mkCallback [user "pulse"] None;
                 mkCallback [user "spin"] (Some (Error "Error" "late")) ] in
  outcome (setup o) = Normal tt
  /\ live (run o (Mount :: map Add anims) initial)
     = [user "intro"; user "pulse"; user "spin"]
  /\ live (onBeforeUnmount o (run o (Mount :: map Add anims) initial)) = [].
Proof.
  intros o anims.
  destruct (@mounted_context_is_fully_reverted o anims eq_refl)
    as (Hlive & _ & Hnone & _).
  split; [reflexivity|]. split; [exact Hlive | exact Hnone].
Defined.

Lemma failed_setup_never_opens_witness :
  let boom := Error "TypeError" "target is null" in
  let o := mkOptions (Some (mkCallback [user "intro"] (Some boom)))
                     (Some (mkCallback [] None)) in
  let s :=
    run o [Mount; Add (mkCallback [user "pulse"] None); Revert; Mount] initial in
  outcome (setup o) = Throw boom
  /\ ctx s = None /\ reverted s = 0 /\ onRevert_runs s = 0
  /\ orphaned s = [user "intro"; user "intro"].
Proof.
  intros boom o s.
  destruct (@failed_setup_never_opens o boom
              [Mount; Add (mkCallback [user "pulse"] None); Revert; Mount]
              eq_refl)
    as (Hc & _ & _ & Hre & Hon & Hor).
  split; [reflexivity|]. split; [exact Hc|]. split; [exact Hre|].
  split; [exact Hon | exact Hor].
Defined.

End ContextExamples.

Section MagneticExamples.

Import Gsap UseMagneticEffect MagneticRuns.

Lemma leave_does_not_cancel_frame_witness :
  let button := mkElement 7 (mkRect (-50) (-20) 100 40) in
  let left_ :=
    handleMouseLeave defaults (Some button)
      (handleMouseMove defaults (Some button) (mkMouse 100 0) initial) in
  near defaults button (mkMouse 100 0) = true
  /\ isActive left_ = false
  /\ exists between,
       engine (animationFrames left_)
       = [] ++ to button 0 0 0.4 "power2.out"
               :: between ++ [to button 30 0 0.4 "power2.out"].
Proof.
  intros button left_. split; [reflexivity|].
  exact (@leave_does_not_cancel_frame defaults button (mkMouse 100 0) initial
           eq_refl).
Defined.

Lemma onEnter_once_per_activation_witness :
  let button := mkElement 7 (mkRect (-50) (-20) 100 40) in
  let o := mkOptions 0.3 0.4 100 "power2.out" (Some "enter") (Some "leave") in
  let moves := [mkMouse 10 0; mkMouse 20 0; mkMouse 30 5] in
  Forall (fun e => near o button e = true) moves
  /\ notified (fold_left (fun s e => handleMouseMove o (Some button) e s)
                         moves initial) = ["enter"].
Proof.
  intros button o moves.
  assert (Hall : Forall (fun e => near o button e = true) moves)
    by (repeat constructor).
  split; [exact Hall|].
  destruct (@onEnter_once_per_activation o button (mkMouse 10 0)
              [mkMouse 20 0; mkMouse 30 5] initial eq_refl Hall)
    as (_ & Hn & _).
  exact Hn.
Defined.

Lemma far_moves_each_reset_witness :
  let button := mkElement 7 (mkRect (-50) (-20) 100 40) in
  let o := mkOptions 0.3 0.4 100 "power2.out" (Some "enter") (Some "leave") in
  let moves := [mkMouse 200 0; mkMouse 0 300] in
  Forall (fun e => near o button e = false) moves
  /\ engine (fold_left (fun s e => handleMouseMove o (Some button) e s)
                       moves initial)
     = [to button 0 0 0.4 "power2.out"; to button 0 0 0.4 "power2.out"]
  /\ notified (fold_left (fun s e => handleMouseMove o (Some button) e s)
                         moves initial) = ["leave"; "leave"].
Proof.
  intros button o moves.
  assert (Hall : Forall (fun e => near o button e = false) moves)
    by (repeat constructor).
  split; [exact Hall|].
  destruct (@far_moves_each_reset o button moves initial Hall) as (Hg & Hn & _).
  split; [exact Hg | exact (Hn "leave" eq_refl)].
Defined.

End MagneticExamples.

Section ScrollRevealEdgeExamples.

Import Gsap UseScrollReveal.

Lemma custom_onEnter_never_sets_flag_witness :
  let card := mkElement 1 (mkRect 0 0 10 10) in
  let o := mkOptions (Single card) 0.2 60 (Some (mkVars None (Some "mine"))) in
  isTriggered (run o [Mount; Enter; Leave; Enter] initial) = false.
Proof.
  intros card o.
  exact (@custom_onEnter_never_sets_flag o (mkVars None (Some "mine")) "mine"
           [Mount; Enter; Leave; Enter] eq_refl eq_refl).
Defined.

Lemma unmounted_flag_is_frozen_witness :
  let card := mkElement 1 (mkRect 0 0 10 10) in
  let o := mkOptions (Single card) 0.2 60 None in
  Forall (fun e => e <> Mount) [Enter; Leave; Enter]
  /\ isTriggered (run o [Enter; Leave; Enter]
                      (deliver o (deliver o initial Mount) Unmount)) = false.
Proof.
  intros card o.
  assert (H : Forall (fun e => e <> Mount) [Enter; Leave; Enter])
    by (repeat constructor; discriminate).
  split; [exact H|].
  exact (@unmounted_flag_is_frozen o (deliver o initial Mount)
           [Enter; Leave; Enter] H).
Defined.

End ScrollRevealEdgeExamples.
